(** * The exponential kernel of mlpack (core/kernels/exponential_kernel.hpp)

    A shallow embedding of the class [mlpack::kernel::ExponentialKernel] and
    the properties its specification states about it.

    ** Numbers

    The class computes on C++ [double]s with [pow], [sqrt], [exp] and [*].
    A [double] is a finite real, plus or minus infinity, or NaN.  The result
    of an operation on finite values is the exact result rounded to the
    nearest binary64 number, a tie going to the even one ([rnd]): 53
    significant bits, multiples of 2^-1074 near zero, infinity once the
    rounded magnitude reaches 2^1024.  So results round, underflow to zero
    and overflow to infinity as they do in the code.  The special values
    behave as IEEE 754 and Annex F of the C standard say.  [exp] and [pow]
    are taken as correctly rounded; what is proved about them rests on the
    rounding being monotone, keeping every double and saturating, and the
    one error bound that is proved leaves room for a result that is a unit
    in the last place off.  Zero carries no sign (none of the operations
    the class uses can observe it).  The distance collaborator is not among the
    sources; its result and the square root of it are the reals the
    specification describes.  Equality of two results is identity of the
    value returned. *)

From Stdlib Require Import Reals Lra Lia ZArith List.
Import ListNotations.

Open Scope R_scope.

(** ** The [double] type and the operations of <cmath> the class uses *)

Inductive double : Type :=
| Fin (r : R)
| PInf
| NInf
| NaN.

(** Sign of a real, as a three-way comparison with zero. *)
Definition Rsign (r : R) : comparison :=
  match total_order_T r 0 with
  | inleft (left _) => Lt
  | inleft (right _) => Eq
  | inright _ => Gt
  end.

(** Sign of a [double]; NaN has none. *)
Definition dsign (x : double) : option comparison :=
  match x with
  | Fin r => Some (Rsign r)
  | PInf => Some Gt
  | NInf => Some Lt
  | NaN => None
  end.

Definition sign_mul (s t : comparison) : comparison :=
  match s, t with
  | Eq, _ | _, Eq => Eq
  | Gt, Gt | Lt, Lt => Gt
  | Gt, Lt | Lt, Gt => Lt
  end.

(** The infinity of a given sign; a product of zero and infinity is NaN. *)
Definition inf_of_sign (s : comparison) : double :=
  match s with
  | Gt => PInf
  | Lt => NInf
  | Eq => NaN
  end.

(** [- x] on doubles. *)
Definition dneg (x : double) : double :=
  match x with
  | Fin r => Fin (- r)
  | PInf => NInf
  | NInf => PInf
  | NaN => NaN
  end.

(** *** Rounding to binary64 *)

(** Nearest integer, a tie going to the even one. *)
Definition Znearest_even (x : R) : Z :=
  let f := Zfloor x in
  match Rsign (x - IZR f - / 2) with
  | Lt => f
  | Gt => (f + 1)%Z
  | Eq => if Z.even f then f else (f + 1)%Z
  end.

(** A magnitude is counted in units of 2^-1074, the smallest positive
    double.  [shift_of k] is the number of low bits a magnitude with integer
    part [k] gives up to fit 53 significant bits: none below 2^53 units. *)
Definition shift_of (k : Z) : Z := Z.max 0 (Z.log2 k - 52).

(** The magnitude [X >= 0], in units, rounded to 53 significant bits. *)
Definition round_units (X : R) : Z :=
  let s := shift_of (Zfloor X) in
  (Znearest_even (X / IZR (2 ^ s)) * 2 ^ s)%Z.

(** Rounding of a real [x >= 0]: infinite once the rounded magnitude
    reaches 2^1024, which is 2^2098 units. *)
Definition round_abs (x : R) : double :=
  let N := round_units (x * IZR (2 ^ 1074)) in
  if Z.ltb N (2 ^ 2098) then Fin (IZR N / IZR (2 ^ 1074)) else PInf.

(** Round to nearest, ties to even; symmetric in the sign. *)
Definition rnd (x : R) : double :=
  match Rsign x with
  | Lt => dneg (round_abs (- x))
  | _ => round_abs x
  end.

(** The doubles among the reals: those the rounding keeps. *)
Definition representable (x : R) : Prop := rnd x = Fin x.

(** *** The operations *)

(** [x * y] on doubles. *)
Definition dmul (x y : double) : double :=
  match x, y with
  | Fin a, Fin b => rnd (a * b)
  | _, _ =>
      match dsign x, dsign y with
      | Some s, Some t => inf_of_sign (sign_mul s t)
      | _, _ => NaN
      end
  end.

(** [x / y] on doubles.  Used by the specification's formula for gamma only,
    never by the code; a zero divisor is read as positive zero, which is what
    a square yields. *)
Definition ddiv (x y : double) : double :=
  match x, y with
  | NaN, _ | _, NaN => NaN
  | Fin a, Fin b =>
      match Rsign b with
      | Eq => inf_of_sign (Rsign a)
      | _ => rnd (a / b)
      end
  | Fin _, _ => Fin 0
  | PInf, Fin b => match Rsign b with Lt => NInf | _ => PInf end
  | NInf, Fin b => match Rsign b with Lt => PInf | _ => NInf end
  | _, _ => NaN
  end.

(** [pow(x, -2.0)]: the inverse square.  [pow] of a zero base with a negative
    even exponent is plus infinity for either zero, and [pow] of either
    infinity with a negative exponent is zero. *)
Definition pow_m2 (x : double) : double :=
  match x with
  | Fin r =>
      match Rsign r with
      | Eq => PInf
      | _ => rnd (/ (r * r))
      end
  | PInf | NInf => Fin 0
  | NaN => NaN
  end.

(** [sqrt(x)]: NaN on a negative argument. *)
Definition dsqrt (x : double) : double :=
  match x with
  | Fin r =>
      match Rsign r with
      | Lt => NaN
      | _ => Fin (sqrt r)
      end
  | PInf => PInf
  | NInf | NaN => NaN
  end.

(** [exp(x)]. *)
Definition dexp (x : double) : double :=
  match x with
  | Fin r => rnd (exp r)
  | PInf => PInf
  | NInf => Fin 0
  | NaN => NaN
  end.

(** The comparisons [x < y] and [x <= y] of doubles: false as soon as one
    side is NaN. *)
Definition dlt (x y : double) : Prop :=
  match x, y with
  | Fin a, Fin b => a < b
  | NInf, Fin _ | NInf, PInf | Fin _, PInf => True
  | _, _ => False
  end.

Definition dle (x y : double) : Prop :=
  match x, y with
  | Fin a, Fin b => a <= b
  | NaN, _ | _, NaN => False
  | NInf, _ | _, PInf => True
  | _, _ => False
  end.

(** A double is finite when it is neither an infinity nor NaN. *)
Definition is_finite (x : double) : Prop :=
  match x with Fin _ => True | _ => False end.

Definition is_infinite (x : double) : Prop :=
  match x with PInf | NInf => True | _ => False end.

(** ** Vectors and the distance collaborator *)

(** A vector ([arma::vec]) with real entries. *)
Definition vec := list R.

Module metric.

(** Sum of the squared differences of the paired coordinates. *)
Fixpoint sum_sq_diff (a b : vec) : R :=
  match a, b with
  | x :: a', y :: b' => (x - y) * (x - y) + sum_sq_diff a' b'
  | _, _ => 0
  end.

(** Modelled from the spec: [metric::SquaredEuclideanDistance::Evaluate] is
    not part of the sources at hand.  The specification describes it as the
    sum of squared per-coordinate differences of two vectors of equal
    length, a real that is at least zero; on vectors of different lengths
    the collaborator fails, which is [None] here. *)
Definition SquaredEuclideanDistance (a b : vec) : option double :=
  if Nat.eqb (length a) (length b)
  then Some (Fin (sum_sq_diff a b))
  else None.

End metric.

(** ** The class *)

Module kernel.

Record ExponentialKernel : Type := mkExponentialKernel {
  bandwidth : double;   (* kernel bandwidth *)
  gamma : double        (* precalculated constant depending on the bandwidth *)
}.

(** [ExponentialKernel()]: sets bandwidth to 1.0 and gamma to -0.5. *)
Definition ExponentialKernel_default : ExponentialKernel :=
  {| bandwidth := Fin 1; gamma := Fin (- (1 / 2)) |}.

(** [ExponentialKernel(double bandwidth)]:
    gamma is [-0.5 * pow(bandwidth, -2.0)]. *)
Definition ExponentialKernel_bw (bw : double) : ExponentialKernel :=
  {| bandwidth := bw; gamma := dmul (Fin (- (1 / 2))) (pow_m2 bw) |}.

(** [Evaluate(const VecType& a, const VecType& b)]:
    [exp(gamma * sqrt(SquaredEuclideanDistance::Evaluate(a, b)))].  A failure
    of the distance computation is passed on. *)
Definition Evaluate (k : ExponentialKernel) (a b : vec) : option double :=
  match metric.SquaredEuclideanDistance a b with
  | Some d => Some (dexp (dmul (gamma k) (dsqrt d)))
  | None => None
  end.

(** [Evaluate(double t)]: [exp(gamma * t)]. *)
Definition Evaluate_t (k : ExponentialKernel) (t : double) : double :=
  dexp (dmul (gamma k) t).

(** [Bandwidth()] and [Gamma()]: read the fields. *)
Definition Bandwidth (k : ExponentialKernel) : double := bandwidth k.
Definition Gamma (k : ExponentialKernel) : double := gamma k.

End kernel.

Import kernel.

(** ** The object as a state: calls on an instance

    Every member function of the class is declared [const] and the two
    accessors hand out [const double&]: a call reads the fields and returns
    a value.  A call is modelled as a function from the state of the
    instance to the value returned and the state after the call. *)

Inductive call : Type :=
| Call_Evaluate (a b : vec)
| Call_Evaluate_t (t : double)
| Call_Bandwidth
| Call_Gamma.

Definition invoke (c : call) (k : ExponentialKernel)
  : option double * ExponentialKernel :=
  match c with
  | Call_Evaluate a b => (Evaluate k a b, k)
  | Call_Evaluate_t t => (Some (Evaluate_t k t), k)
  | Call_Bandwidth => (Some (Bandwidth k), k)
  | Call_Gamma => (Some (Gamma k), k)
  end.

(** A sequence of calls on one instance, each on the state the previous one
    left; the values returned are collected in order. *)
Fixpoint run (cs : list call) (k : ExponentialKernel)
  : list (option double) * ExponentialKernel :=
  match cs with
  | [] => ([], k)
  | c :: cs' =>
      let (v, k1) := invoke c k in
      let (vs, k2) := run cs' k1 in
      (v :: vs, k2)
  end.

(** ** The specification's own formulas *)

Module spec.

(** Coordinate-wise difference [a - b]. *)
Fixpoint vsub (a b : vec) : vec :=
  match a, b with
  | x :: a', y :: b' => (x - y) :: vsub a' b'
  | _, _ => []
  end.

(** Sum of the squares of the coordinates. *)
Definition sum_squares (v : vec) : R :=
  fold_right (fun x s => x * x + s) 0 v.

(** The (non-squared) Euclidean norm. *)
Definition norm (v : vec) : R := sqrt (sum_squares v).

(** The Euclidean distance of the specification: the norm of [a - b]. *)
Definition EuclideanDistance (a b : vec) : R := norm (vsub a b).

(** The specification's formula for gamma, [-1 / (2 * bandwidth^2)],
    evaluated on doubles. *)
Definition gamma_of (bw : double) : double :=
  ddiv (Fin (-1)) (dmul (Fin 2) (dmul bw bw)).

(** What the specification calls a degenerate gamma: infinite or positive. *)
Definition degenerate_gamma (g : double) : Prop :=
  is_infinite g \/ dlt (Fin 0) g.

(** What it expects [Evaluate] to return then: 0, an infinity or NaN. *)
Definition degenerate_result (v : double) : Prop :=
  v = Fin 0 \/ is_infinite v \/ v = NaN.

End spec.

(** ** Auxiliary facts on the number model *)

Lemma Rsign_Lt (r : R) : r < 0 -> Rsign r = Lt.
Proof.
  intros H. unfold Rsign.
  destruct (total_order_T r 0) as [[Hlt | Heq] | Hgt]; trivial; lra.
Qed.

Lemma Rsign_Eq (r : R) : r = 0 -> Rsign r = Eq.
Proof.
  intros H. unfold Rsign.
  destruct (total_order_T r 0) as [[Hlt | Heq] | Hgt]; trivial; lra.
Qed.

Lemma Rsign_Gt (r : R) : 0 < r -> Rsign r = Gt.
Proof.
  intros H. unfold Rsign.
  destruct (total_order_T r 0) as [[Hlt | Heq] | Hgt]; trivial; lra.
Qed.

Lemma Rsign_cases (r : R) :
  (r < 0 /\ Rsign r = Lt) \/ (r = 0 /\ Rsign r = Eq) \/ (0 < r /\ Rsign r = Gt).
Proof.
  destruct (Rtotal_order r 0) as [H | [H | H]].
  - left. split; [assumption | now apply Rsign_Lt].
  - right; left. split; [assumption | now apply Rsign_Eq].
  - right; right. split; [lra | apply Rsign_Gt; lra].
Qed.

(** ** Nearest integer *)

Lemma Znearest_even_cases (x : R) :
  let f := Zfloor x in
  (x - IZR f < / 2 /\ Znearest_even x = f) \/
  (x - IZR f = / 2 /\ Znearest_even x = if Z.even f then f else (f + 1)%Z) \/
  (/ 2 < x - IZR f /\ Znearest_even x = (f + 1)%Z).
Proof.
  intros f. unfold Znearest_even. fold f.
  destruct (Rsign_cases (x - IZR f - / 2)) as [[H E] | [[H E] | [H E]]];
    rewrite E.
  - left. split; [lra | reflexivity].
  - right; left. split; [lra | reflexivity].
  - right; right. split; [lra | reflexivity].
Qed.

Lemma Znearest_even_floor (x : R) :
  (Zfloor x <= Znearest_even x <= Zfloor x + 1)%Z.
Proof.
  destruct (Znearest_even_cases x) as [[_ E] | [[_ E] | [_ E]]]; rewrite E;
    try destruct (Z.even (Zfloor x)); lia.
Qed.

Lemma Znearest_even_IZR (k : Z) : Znearest_even (IZR k) = k.
Proof.
  pose proof (Znearest_even_cases (IZR k)) as H. simpl in H.
  rewrite ZfloorZ in H.
  destruct H as [[_ E] | [[H _] | [H _]]]; trivial; lra.
Qed.

Lemma Znearest_even_le (x y : R) :
  x <= y -> (Znearest_even x <= Znearest_even y)%Z.
Proof.
  intros Hxy.
  pose proof (Zfloor_le x y Hxy) as Hf.
  destruct (Z.eq_dec (Zfloor x) (Zfloor y)) as [Heq | Hne].
  - pose proof (Znearest_even_cases x) as Hx.
    pose proof (Znearest_even_cases y) as Hy. simpl in Hx, Hy.
    rewrite Heq in Hx.
    destruct Hx as [[Hx Ex] | [[Hx Ex] | [Hx Ex]]];
    destruct Hy as [[Hy Ey] | [[Hy Ey] | [Hy Ey]]];
      rewrite Ex, Ey; try destruct (Z.even (Zfloor y)); try lia; lra.
  - pose proof (Znearest_even_floor x). pose proof (Znearest_even_floor y).
    lia.
Qed.

Lemma Znearest_even_error (x : R) :
  Rabs (IZR (Znearest_even x) - x) <= / 2.
Proof.
  pose proof (Zfloor_bound x) as Hb.
  destruct (Znearest_even_cases x) as [[H E] | [[H E] | [H E]]]; rewrite E.
  - apply Rabs_le. lra.
  - destruct (Z.even (Zfloor x)); [| rewrite plus_IZR]; apply Rabs_le; lra.
  - rewrite plus_IZR. apply Rabs_le. lra.
Qed.

(** ** Powers of two *)

Lemma IZR_pow2_pos (s : Z) : (0 <= s)%Z -> 0 < IZR (2 ^ s).
Proof. intros H. apply IZR_lt. apply Z.pow_pos_nonneg; lia. Qed.

Lemma IZR_pow2_add (s t : Z) :
  (0 <= s)%Z -> (0 <= t)%Z -> IZR (2 ^ (s + t)) = IZR (2 ^ s) * IZR (2 ^ t).
Proof. intros Hs Ht. now rewrite Z.pow_add_r, mult_IZR. Qed.

Lemma shift_of_nonneg (k : Z) : (0 <= shift_of k)%Z.
Proof. unfold shift_of. lia. Qed.

Lemma shift_of_le (k l : Z) : (k <= l)%Z -> (shift_of k <= shift_of l)%Z.
Proof.
  intros H. unfold shift_of. pose proof (Z.log2_le_mono k l H). lia.
Qed.

(** A magnitude lies below the end of its binade. *)
Lemma below_binade_end (X : R) :
  0 <= X -> X < IZR (2 ^ (shift_of (Zfloor X) + 53)).
Proof.
  intros HX.
  pose proof (Zfloor_bound X) as [Hlo Hhi].
  assert (Hk : (0 <= Zfloor X)%Z) by (apply Zfloor_lub; simpl; lra).
  assert (Hlt : (Zfloor X + 1 <= 2 ^ (shift_of (Zfloor X) + 53))%Z).
  { destruct (Z.eq_dec (Zfloor X) 0) as [-> | Hnz].
    - pose proof (shift_of_nonneg 0).
      assert (0 < 2 ^ (shift_of 0 + 53))%Z by (apply Z.pow_pos_nonneg; lia).
      lia.
    - assert (Hpos : (0 < Zfloor X)%Z) by lia.
      pose proof (Z.log2_spec _ Hpos) as [_ Hup].
      assert (Hle : (Z.succ (Z.log2 (Zfloor X)) <= shift_of (Zfloor X) + 53)%Z)
        by (unfold shift_of; lia).
      pose proof (Z.pow_le_mono_r 2 _ _ ltac:(lia) Hle). lia. }
  apply IZR_le in Hlt. rewrite plus_IZR in Hlt. lra.
Qed.

(** With a positive shift it lies above the start of its binade. *)
Lemma above_binade_start (X : R) :
  (0 < shift_of (Zfloor X))%Z -> IZR (2 ^ (shift_of (Zfloor X) + 52)) <= X.
Proof.
  intros Hs.
  pose proof (Zfloor_bound X) as [Hlo _].
  assert (Hlog : Z.log2 (Zfloor X) = (shift_of (Zfloor X) + 52)%Z)
    by (unfold shift_of in *; lia).
  assert (Hpos : (0 < Zfloor X)%Z).
  { destruct (Z_lt_le_dec 0 (Zfloor X)) as [H | H]; trivial.
    rewrite (Z.log2_nonpos _ H) in Hlog. lia. }
  pose proof (Z.log2_spec _ Hpos) as [Hdn _]. rewrite Hlog in Hdn.
  apply IZR_le in Hdn. lra.
Qed.

(** ** Rounding of magnitudes *)

Lemma round_units_upper (X : R) :
  0 <= X ->
  (round_units X <= 2 ^ (shift_of (Zfloor X) + 53))%Z.
Proof.
  intros HX. unfold round_units.
  set (s := shift_of (Zfloor X)).
  assert (Hs : (0 <= s)%Z) by apply shift_of_nonneg.
  pose proof (IZR_pow2_pos s Hs) as Hp.
  assert (Hq : X / IZR (2 ^ s) <= IZR (2 ^ 53)).
  { pose proof (below_binade_end X HX) as Hb. fold s in Hb.
    rewrite IZR_pow2_add in Hb by lia.
    apply Rmult_le_reg_r with (IZR (2 ^ s)); trivial.
    unfold Rdiv. rewrite Rmult_assoc, Rinv_l by lra. lra. }
  apply Znearest_even_le in Hq. rewrite Znearest_even_IZR in Hq.
  rewrite Z.pow_add_r by lia.
  rewrite (Z.mul_comm (2 ^ s)).
  apply Z.mul_le_mono_nonneg_r; [apply Z.pow_nonneg; lia | exact Hq].
Qed.

Lemma round_units_lower (X : R) :
  (0 < shift_of (Zfloor X))%Z ->
  (2 ^ (shift_of (Zfloor X) + 52) <= round_units X)%Z.
Proof.
  intros Hpos. unfold round_units.
  set (s := shift_of (Zfloor X)) in *.
  assert (Hs : (0 <= s)%Z) by lia.
  pose proof (IZR_pow2_pos s Hs) as Hp.
  assert (Hq : IZR (2 ^ 52) <= X / IZR (2 ^ s)).
  { pose proof (above_binade_start X Hpos) as Hb. fold s in Hb.
    rewrite IZR_pow2_add in Hb by lia.
    apply Rmult_le_reg_r with (IZR (2 ^ s)); trivial.
    unfold Rdiv. rewrite Rmult_assoc, Rinv_l by lra. lra. }
  apply Znearest_even_le in Hq. rewrite Znearest_even_IZR in Hq.
  rewrite Z.pow_add_r by lia.
  rewrite (Z.mul_comm (2 ^ s)).
  apply Z.mul_le_mono_nonneg_r; [apply Z.pow_nonneg; lia | exact Hq].
Qed.

Lemma round_units_le (X Y : R) :
  0 <= X -> X <= Y -> (round_units X <= round_units Y)%Z.
Proof.
  intros HX HXY.
  pose proof (shift_of_le _ _ (Zfloor_le X Y HXY)) as Hs.
  destruct (Z.eq_dec (shift_of (Zfloor X)) (shift_of (Zfloor Y))) as [E | NE].
  - unfold round_units. rewrite E.
    set (s := shift_of (Zfloor Y)).
    assert (Hs0 : (0 <= s)%Z) by apply shift_of_nonneg.
    pose proof (IZR_pow2_pos s Hs0) as Hp.
    apply Z.mul_le_mono_nonneg_r; [apply Z.pow_nonneg; lia |].
    apply Znearest_even_le.
    unfold Rdiv. apply Rmult_le_compat_r; [| exact HXY].
    left. now apply Rinv_0_lt_compat.
  - pose proof (shift_of_nonneg (Zfloor X)) as H0.
    assert (Hpos : (0 < shift_of (Zfloor Y))%Z) by lia.
    pose proof (round_units_upper X HX) as Hu.
    pose proof (round_units_lower Y Hpos) as Hl.
    assert (Hle : (shift_of (Zfloor X) + 53 <= shift_of (Zfloor Y) + 52)%Z)
      by lia.
    pose proof (Z.pow_le_mono_r 2 _ _ ltac:(lia) Hle). lia.
Qed.

(** A magnitude with at most 53 significant bits is kept. *)
Lemma round_units_exact (m j : Z) :
  (0 <= m < 2 ^ 53)%Z -> (0 <= j)%Z ->
  round_units (IZR (m * 2 ^ j)) = (m * 2 ^ j)%Z.
Proof.
  intros Hm Hj. unfold round_units. rewrite ZfloorZ.
  set (s := shift_of (m * 2 ^ j)).
  assert (Hs0 : (0 <= s)%Z) by apply shift_of_nonneg.
  assert (Hsj : (s <= j)%Z).
  { unfold s, shift_of.
    destruct (Z.eq_dec m 0) as [-> | Hnz].
    - simpl. lia.
    - rewrite Z.log2_mul_pow2 by lia.
      assert (Z.log2 m < 53)%Z by (apply Z.log2_lt_pow2; lia). lia. }
  assert (Hsplit : (m * 2 ^ j = m * 2 ^ (j - s) * 2 ^ s)%Z).
  { rewrite <- Z.mul_assoc, <- Z.pow_add_r by lia. do 2 f_equal. lia. }
  pose proof (IZR_pow2_pos s Hs0) as Hp.
  rewrite Hsplit at 1. rewrite mult_IZR.
  unfold Rdiv. rewrite Rmult_assoc, Rinv_r, Rmult_1_r by lra.
  rewrite Znearest_even_IZR. now rewrite <- Hsplit.
Qed.

Lemma round_units_0 : round_units 0 = 0%Z.
Proof. exact (round_units_exact 0 0 ltac:(lia) ltac:(lia)). Qed.

Lemma round_units_nonneg (X : R) : 0 <= X -> (0 <= round_units X)%Z.
Proof.
  intros HX. rewrite <- round_units_0. apply round_units_le; lra.
Qed.

(** Half a unit and less rounds to zero. *)
Lemma round_units_tiny (X : R) : 0 <= X -> X <= / 2 -> round_units X = 0%Z.
Proof.
  intros H0 Hh.
  assert (Hf : Zfloor X = 0%Z) by (apply Zfloor_eq; simpl; lra).
  unfold round_units. rewrite Hf.
  change (shift_of 0) with 0%Z. change (2 ^ 0)%Z with 1%Z.
  rewrite Z.mul_1_r. unfold Rdiv. rewrite Rinv_1, Rmult_1_r.
  destruct (Znearest_even_cases X) as [[_ E] | [[_ E] | [H _]]].
  - now rewrite E.
  - rewrite E, Hf. reflexivity.
  - rewrite Hf in H. simpl in H. lra.
Qed.

(** ** Rounding of reals *)

Lemma unit_pos : 0 < IZR (2 ^ 1074).
Proof. apply IZR_pow2_pos. lia. Qed.

Lemma round_abs_cases (x : R) :
  let N := round_units (x * IZR (2 ^ 1074)) in
  ((N < 2 ^ 2098)%Z /\ round_abs x = Fin (IZR N / IZR (2 ^ 1074))) \/
  ((2 ^ 2098 <= N)%Z /\ round_abs x = PInf).
Proof.
  intros N. unfold round_abs. fold N.
  destruct (Z.ltb_spec N (2 ^ 2098)); [left | right]; split; trivial.
Qed.

Lemma scaled_nonneg (x : R) : 0 <= x -> 0 <= x * IZR (2 ^ 1074).
Proof. intros H. pose proof unit_pos. now apply Rmult_le_pos; [| left]. Qed.

Lemma round_abs_le (x y : R) :
  0 <= x -> x <= y -> dle (round_abs x) (round_abs y).
Proof.
  intros Hx Hxy. pose proof unit_pos as Hu.
  assert (HN : (round_units (x * IZR (2 ^ 1074))
                <= round_units (y * IZR (2 ^ 1074)))%Z).
  { apply round_units_le; [now apply scaled_nonneg |].
    apply Rmult_le_compat_r; lra. }
  destruct (round_abs_cases x) as [[Hx1 ->] | [Hx1 ->]];
  destruct (round_abs_cases y) as [[Hy1 ->] | [Hy1 ->]]; simpl; trivial.
  - unfold Rdiv. apply Rmult_le_compat_r.
    + left. now apply Rinv_0_lt_compat.
    + now apply IZR_le.
  - lia.
Qed.

Lemma round_abs_0 : round_abs 0 = Fin 0.
Proof.
  unfold round_abs. rewrite Rmult_0_l, round_units_0.
  destruct (Z.ltb_spec 0 (2 ^ 2098)) as [_ | H].
  - f_equal. unfold Rdiv. now rewrite Rmult_0_l.
  - exfalso. assert (0 < 2 ^ 2098)%Z by (apply Z.pow_pos_nonneg; lia). lia.
Qed.

Lemma round_abs_nonneg (x : R) : 0 <= x -> dle (Fin 0) (round_abs x).
Proof.
  intros H. rewrite <- round_abs_0. apply round_abs_le; lra.
Qed.

(** A double, counted in units of 2^-1074, is kept. *)
Lemma round_abs_exact (m j : Z) :
  (0 <= m < 2 ^ 53)%Z -> (0 <= j)%Z -> (m * 2 ^ j < 2 ^ 2098)%Z ->
  round_abs (IZR (m * 2 ^ j) / IZR (2 ^ 1074))
  = Fin (IZR (m * 2 ^ j) / IZR (2 ^ 1074)).
Proof.
  intros Hm Hj Hlt. pose proof unit_pos as Hu.
  unfold round_abs.
  replace (IZR (m * 2 ^ j) / IZR (2 ^ 1074) * IZR (2 ^ 1074))
    with (IZR (m * 2 ^ j)) by (field; lra).
  rewrite (round_units_exact m j Hm Hj).
  destruct (Z.ltb_spec (m * 2 ^ j) (2 ^ 2098)); [reflexivity | lia].
Qed.

(** From 2^1024 on the result is infinite. *)
Lemma round_abs_overflow (x : R) : IZR (2 ^ 1024) <= x -> round_abs x = PInf.
Proof.
  intros H. pose proof unit_pos as Hu.
  assert (Hs : IZR (1 * 2 ^ 2098) <= x * IZR (2 ^ 1074)).
  { rewrite Z.mul_1_l.
    replace (2 ^ 2098)%Z with (2 ^ (1024 + 1074))%Z by reflexivity.
    rewrite IZR_pow2_add by lia. apply Rmult_le_compat_r; lra. }
  assert (H0 : 0 <= IZR (1 * 2 ^ 2098)).
  { apply IZR_le. apply Z.mul_nonneg_nonneg; [lia | apply Z.pow_nonneg; lia]. }
  pose proof (round_units_le _ _ H0 Hs) as HN.
  rewrite (round_units_exact 1 2098) in HN by lia.
  destruct (round_abs_cases x) as [[Hlt _] | [_ E]]; [lia | exact E].
Qed.

(** Up to half the smallest double the result is zero. *)
Lemma round_abs_underflow (x : R) :
  0 <= x -> x <= / IZR (2 ^ 1075) -> round_abs x = Fin 0.
Proof.
  intros H0 Hx. pose proof unit_pos as Hu.
  assert (Hh : x * IZR (2 ^ 1074) <= / 2).
  { replace (2 ^ 1075)%Z with (2 ^ (1074 + 1))%Z in Hx by reflexivity.
    rewrite IZR_pow2_add in Hx by lia.
    change (IZR (2 ^ 1)) with 2 in Hx.
    rewrite Rinv_mult in Hx.
    apply Rmult_le_compat_r with (r := IZR (2 ^ 1074)) in Hx; [| lra].
    rewrite (Rmult_comm (/ IZR (2 ^ 1074))), Rmult_assoc, Rinv_l in Hx by lra.
    lra. }
  unfold round_abs.
  rewrite (round_units_tiny _ (scaled_nonneg x H0) Hh).
  destruct (Z.ltb_spec 0 (2 ^ 2098)) as [_ | H].
  - f_equal. unfold Rdiv. now rewrite Rmult_0_l.
  - exfalso. assert (0 < 2 ^ 2098)%Z by (apply Z.pow_pos_nonneg; lia). lia.
Qed.

Lemma dle_dneg (x y : double) : dle x y -> dle (dneg y) (dneg x).
Proof. destruct x, y; simpl; trivial; lra. Qed.

Lemma dle_trans (x y z : double) : dle x y -> dle y z -> dle x z.
Proof. destruct x, y, z; simpl; trivial; try lra; contradiction. Qed.

Lemma rnd_nonneg_eq (x : R) : 0 <= x -> rnd x = round_abs x.
Proof.
  intros H. unfold rnd.
  destruct (Rsign_cases x) as [[H1 E] | [[H1 E] | [H1 E]]]; rewrite E;
    trivial; lra.
Qed.

Lemma rnd_neg_eq (x : R) : x < 0 -> rnd x = dneg (round_abs (- x)).
Proof. intros H. unfold rnd. now rewrite Rsign_Lt. Qed.

Lemma rnd_0 : rnd 0 = Fin 0.
Proof. rewrite rnd_nonneg_eq by lra. apply round_abs_0. Qed.

Lemma rnd_opp (x : R) : rnd (- x) = dneg (rnd x).
Proof.
  destruct (Rtotal_order x 0) as [H | [-> | H]].
  - rewrite (rnd_neg_eq x H), rnd_nonneg_eq by lra.
    destruct (round_abs (- x)); simpl; trivial. now rewrite Ropp_involutive.
  - rewrite Ropp_0, rnd_0. simpl. now rewrite Ropp_0.
  - rewrite rnd_neg_eq, Ropp_involutive by lra.
    now rewrite (rnd_nonneg_eq x) by lra.
Qed.

(** Rounding is monotone. *)
Lemma rnd_le (x y : R) : x <= y -> dle (rnd x) (rnd y).
Proof.
  intros Hxy.
  destruct (Rlt_le_dec x 0) as [Hx | Hx]; destruct (Rlt_le_dec y 0) as [Hy | Hy].
  - rewrite (rnd_neg_eq x Hx), (rnd_neg_eq y Hy).
    apply dle_dneg. apply round_abs_le; lra.
  - rewrite (rnd_neg_eq x Hx), (rnd_nonneg_eq y Hy).
    apply dle_trans with (Fin 0).
    + replace (Fin 0) with (dneg (Fin 0)) by (simpl; now rewrite Ropp_0).
      apply dle_dneg. apply round_abs_nonneg. lra.
    + now apply round_abs_nonneg.
  - lra.
  - rewrite (rnd_nonneg_eq x Hx), (rnd_nonneg_eq y Hy).
    now apply round_abs_le.
Qed.

Lemma rnd_not_NaN (x : R) : rnd x <> NaN.
Proof.
  pose proof (rnd_le x x (Rle_refl x)) as H.
  destruct (rnd x); simpl in H; try discriminate. contradiction.
Qed.

Lemma rnd_overflow (x : R) : IZR (2 ^ 1024) <= x -> rnd x = PInf.
Proof.
  intros H. assert (0 < IZR (2 ^ 1024)) by (apply IZR_pow2_pos; lia).
  rewrite rnd_nonneg_eq by lra. now apply round_abs_overflow.
Qed.

Lemma rnd_underflow (x : R) :
  0 <= x -> x <= / IZR (2 ^ 1075) -> rnd x = Fin 0.
Proof.
  intros H0 H. rewrite rnd_nonneg_eq by lra. now apply round_abs_underflow.
Qed.

(** Every double is kept by the rounding. *)
Lemma rnd_exact (m j : Z) :
  (Z.abs m < 2 ^ 53)%Z -> (0 <= j)%Z -> (Z.abs m * 2 ^ j < 2 ^ 2098)%Z ->
  rnd (IZR (m * 2 ^ j) / IZR (2 ^ 1074))
  = Fin (IZR (m * 2 ^ j) / IZR (2 ^ 1074)).
Proof.
  intros Hm Hj Hlt. pose proof unit_pos as Hu.
  destruct (Z_lt_le_dec m 0) as [Hneg | Hpos].
  - replace (IZR (m * 2 ^ j) / IZR (2 ^ 1074))
      with (- (IZR (- m * 2 ^ j) / IZR (2 ^ 1074))).
    2:{ rewrite Z.mul_opp_l, opp_IZR. field. lra. }
    assert (Hnn : 0 <= IZR (- m * 2 ^ j) / IZR (2 ^ 1074)).
    { apply Rmult_le_pos; [| left; now apply Rinv_0_lt_compat].
      apply IZR_le. apply Z.mul_nonneg_nonneg; [lia | apply Z.pow_nonneg; lia]. }
    rewrite rnd_opp, rnd_nonneg_eq by exact Hnn.
    rewrite round_abs_exact by lia. reflexivity.
  - assert (Hnn : 0 <= IZR (m * 2 ^ j) / IZR (2 ^ 1074)).
    { apply Rmult_le_pos; [| left; now apply Rinv_0_lt_compat].
      apply IZR_le. apply Z.mul_nonneg_nonneg; [lia | apply Z.pow_nonneg; lia]. }
    rewrite rnd_nonneg_eq by exact Hnn.
    apply round_abs_exact; lia.
Qed.

(** What the rounding returns is a double: rounding it again changes
    nothing. *)
Lemma round_abs_idempotent (x y : R) :
  0 <= x -> round_abs x = Fin y -> round_abs y = Fin y.
Proof.
  intros Hx Hy. pose proof unit_pos as Hu.
  destruct (round_abs_cases x) as [[Hlt E] | [_ E]]; rewrite E in Hy;
    [| discriminate Hy].
  injection Hy as <-.
  set (X := x * IZR (2 ^ 1074)) in *.
  assert (HX : 0 <= X) by now apply scaled_nonneg.
  set (s := shift_of (Zfloor X)).
  assert (Hs : (0 <= s)%Z) by apply shift_of_nonneg.
  pose proof (IZR_pow2_pos s Hs) as Hp.
  set (M := Znearest_even (X / IZR (2 ^ s))).
  assert (HN : round_units X = (M * 2 ^ s)%Z) by reflexivity.
  assert (HM0 : (0 <= M)%Z).
  { unfold M. rewrite <- (Znearest_even_IZR 0). apply Znearest_even_le.
    apply Rmult_le_pos; [exact HX | left; now apply Rinv_0_lt_compat]. }
  assert (HM1 : (M <= 2 ^ 53)%Z).
  { pose proof (round_units_upper X HX) as Hup. fold s in Hup.
    rewrite HN, Z.pow_add_r, (Z.mul_comm (2 ^ s)) in Hup by lia.
    apply Z.mul_le_mono_pos_r in Hup; trivial.
    apply Z.pow_pos_nonneg; lia. }
  change (round_abs (IZR (round_units X) / IZR (2 ^ 1074))
          = Fin (IZR (round_units X) / IZR (2 ^ 1074))).
  rewrite HN in *.
  destruct (Z.eq_dec M (2 ^ 53)) as [E53 | N53].
  - assert (Hsplit : (M * 2 ^ s = 1 * 2 ^ (53 + s))%Z)
      by (rewrite E53, Z.pow_add_r by lia; lia).
    rewrite Hsplit in *. apply (round_abs_exact 1 (53 + s)); lia.
  - apply (round_abs_exact M s); lia.
Qed.

Lemma rnd_idempotent (x y : R) : rnd x = Fin y -> rnd y = Fin y.
Proof.
  intros H.
  destruct (Rlt_le_dec x 0) as [Hx | Hx].
  - rewrite (rnd_neg_eq x Hx) in H.
    destruct (round_abs (- x)) as [z | | |] eqn:E; try discriminate H.
    injection H as <-.
    assert (Hz : dle (Fin 0) (Fin z)).
    { rewrite <- E. apply round_abs_nonneg. lra. }
    simpl in Hz.
    rewrite rnd_opp, (rnd_nonneg_eq z Hz).
    rewrite (round_abs_idempotent (- x) z) by (trivial; lra). reflexivity.
  - rewrite (rnd_nonneg_eq x Hx) in H.
    assert (Hy : dle (Fin 0) (Fin y)).
    { rewrite <- H. now apply round_abs_nonneg. }
    simpl in Hy. rewrite (rnd_nonneg_eq y Hy).
    now apply (round_abs_idempotent x y).
Qed.

(** *** Doubles that the rounding keeps *)

Lemma rnd_dyadic (m n : Z) :
  (Z.abs m < 2 ^ 53)%Z -> (0 <= n <= 1074)%Z ->
  rnd (IZR m / IZR (2 ^ n)) = Fin (IZR m / IZR (2 ^ n)).
Proof.
  intros Hm Hn.
  pose proof (IZR_pow2_pos n ltac:(lia)) as Hp.
  pose proof (IZR_pow2_pos (1074 - n) ltac:(lia)) as Hq.
  assert (E : IZR m / IZR (2 ^ n)
              = IZR (m * 2 ^ (1074 - n)) / IZR (2 ^ 1074)).
  { replace 1074%Z with (n + (1074 - n))%Z at 2 by lia.
    rewrite IZR_pow2_add, mult_IZR by lia. field. lra. }
  rewrite E. apply rnd_exact; [exact Hm | lia |].
  assert (H1 : (2 ^ (1074 - n) <= 2 ^ 1074)%Z)
    by (apply Z.pow_le_mono_r; lia).
  assert (H2 : (0 < 2 ^ (1074 - n))%Z) by (apply Z.pow_pos_nonneg; lia).
  assert (H3 : (Z.abs m * 2 ^ (1074 - n) < 2 ^ 53 * 2 ^ 1074)%Z).
  { apply Z.le_lt_trans with (Z.abs m * 2 ^ 1074)%Z.
    - apply Z.mul_le_mono_nonneg_l; lia.
    - apply Z.mul_lt_mono_pos_r; [apply Z.pow_pos_nonneg; lia | exact Hm]. }
  rewrite <- Z.pow_add_r in H3 by lia.
  assert (H4 : (2 ^ (53 + 1074) <= 2 ^ 2098)%Z)
    by (apply Z.pow_le_mono_r; lia).
  lia.
Qed.

Lemma rnd_int (k : Z) : (Z.abs k < 2 ^ 53)%Z -> rnd (IZR k) = Fin (IZR k).
Proof.
  intros Hk. pose proof (rnd_dyadic k 0 Hk ltac:(lia)) as H.
  change (IZR (2 ^ 0)) with 1 in H. unfold Rdiv in H.
  now rewrite Rinv_1, Rmult_1_r in H.
Qed.

Lemma rnd_pow2 (n : Z) :
  (0 <= n <= 1023)%Z -> rnd (IZR (2 ^ n)) = Fin (IZR (2 ^ n)).
Proof.
  intros Hn. pose proof unit_pos as Hu.
  assert (E : IZR (2 ^ n) = IZR (1 * 2 ^ (n + 1074)) / IZR (2 ^ 1074)).
  { rewrite Z.mul_1_l, IZR_pow2_add by lia. field. lra. }
  rewrite E. apply rnd_exact; [reflexivity | lia |].
  change (Z.abs 1) with 1%Z. rewrite Z.mul_1_l.
  apply Z.pow_lt_mono_r; lia.
Qed.

Lemma rnd_inv_pow2 (n : Z) :
  (0 <= n <= 1074)%Z -> rnd (/ IZR (2 ^ n)) = Fin (/ IZR (2 ^ n)).
Proof.
  intros Hn. pose proof (rnd_dyadic 1 n ltac:(reflexivity) Hn) as H.
  unfold Rdiv in H. now rewrite Rmult_1_l in H.
Qed.

Lemma rnd_1 : rnd 1 = Fin 1.
Proof. exact (rnd_int 1 ltac:(reflexivity)). Qed.

Lemma rnd_opp_inv_pow2 (n : Z) :
  (0 <= n <= 1074)%Z -> rnd (- / IZR (2 ^ n)) = Fin (- / IZR (2 ^ n)).
Proof. intros Hn. now rewrite rnd_opp, rnd_inv_pow2. Qed.

(** *** Order on doubles *)

Lemma dle_Fin_0_cases (x : double) :
  dle (Fin 0) x -> x = PInf \/ exists r : R, x = Fin r /\ 0 <= r.
Proof.
  destruct x as [r | | |]; simpl; intros H; try contradiction.
  - right. now exists r.
  - now left.
Qed.

Lemma dle_cases_Fin_0 (x : double) :
  dle x (Fin 0) -> x = NInf \/ exists r : R, x = Fin r /\ r <= 0.
Proof.
  destruct x as [r | | |]; simpl; intros H; try contradiction.
  - right. now exists r.
  - now left.
Qed.

Lemma dle_PInf (x : double) : x <> NaN -> dle x PInf.
Proof. destruct x; simpl; trivial. intros H. now apply H. Qed.

Lemma dle_NInf (x : double) : x <> NaN -> dle NInf x.
Proof. destruct x; simpl; trivial. intros H. now apply H. Qed.

Lemma dle_not_NaN_l (x y : double) : dle x y -> x <> NaN.
Proof. destruct x; simpl; try discriminate. destruct y; contradiction. Qed.

Lemma dle_not_NaN_r (x y : double) : dle x y -> y <> NaN.
Proof. destruct y; simpl; try discriminate. destruct x; contradiction. Qed.

Lemma rnd_nonneg (x : R) : 0 <= x -> dle (Fin 0) (rnd x).
Proof. intros H. rewrite <- rnd_0. now apply rnd_le. Qed.

Lemma rnd_nonpos (x : R) : x <= 0 -> dle (rnd x) (Fin 0).
Proof. intros H. rewrite <- rnd_0. now apply rnd_le. Qed.

(** A real between two reals with finite roundings has a finite one. *)
Lemma rnd_finite_between (a x b : R) :
  a <= x -> x <= b -> is_finite (rnd a) -> is_finite (rnd b) ->
  is_finite (rnd x).
Proof.
  intros Hax Hxb Ha Hb.
  pose proof (rnd_le a x Hax) as H1. pose proof (rnd_le x b Hxb) as H2.
  destruct (rnd a), (rnd b), (rnd x); simpl in *; trivial.
Qed.

(** *** The operations on finite values *)

Lemma dexp_0 : dexp (Fin 0) = Fin 1.
Proof. simpl. rewrite exp_0. apply rnd_1. Qed.

Lemma dmul_0_r (g : R) : dmul (Fin g) (Fin 0) = Fin 0.
Proof. simpl. rewrite Rmult_0_r. apply rnd_0. Qed.


(** [exp] is monotone on doubles. *)
Lemma dexp_le (x y : double) : dle x y -> dle (dexp x) (dexp y).
Proof.
  intros H.
  destruct x as [a | | |], y as [b | | |]; simpl in H; try contradiction;
    simpl; trivial.
  - apply rnd_le. destruct H as [H | ->]; [left; now apply exp_increasing | lra].
  - apply dle_PInf, rnd_not_NaN.
  - apply rnd_nonneg. left. apply exp_pos.
  - lra.
Qed.

(** On an argument that is at most zero [exp] returns a value of [0, 1]. *)
Lemma dexp_nonpos_range (x : double) :
  dle x (Fin 0) -> dle (Fin 0) (dexp x) /\ dle (dexp x) (Fin 1).
Proof.
  intros H. split.
  - destruct (dle_cases_Fin_0 x H) as [-> | [r [-> Hr]]]; simpl; [lra |].
    apply rnd_nonneg. left. apply exp_pos.
  - rewrite <- dexp_0. now apply dexp_le.
Qed.

(** On an argument that is at least zero it returns at least 1. *)
Lemma dexp_nonneg_range (x : double) : dle (Fin 0) x -> dle (Fin 1) (dexp x).
Proof. intros H. rewrite <- dexp_0. now apply dexp_le. Qed.

(** [pow(x, -2.0)] is never negative and never NaN on a finite base. *)
Lemma pow_m2_nonneg (r : R) : dle (Fin 0) (pow_m2 (Fin r)).
Proof.
  simpl. destruct (Rsign_cases r) as [[H E] | [[H E] | [H E]]]; rewrite E;
    simpl; trivial; apply rnd_nonneg; left; apply Rinv_0_lt_compat; nra.
Qed.

Lemma pow_m2_Fin_nonzero (r : R) :
  r <> 0 -> pow_m2 (Fin r) = rnd (/ (r * r)).
Proof.
  intros H. simpl.
  destruct (Rsign_cases r) as [[H1 E] | [[H1 E] | [H1 E]]]; rewrite E;
    trivial; lra.
Qed.

Lemma pow_m2_zero : pow_m2 (Fin 0) = PInf.
Proof. simpl. now rewrite Rsign_Eq. Qed.

(** [pow(x, -2.0)] sees its argument through the square only. *)
Lemma pow_m2_opp (r : R) : pow_m2 (Fin (- r)) = pow_m2 (Fin r).
Proof.
  destruct (Req_dec r 0) as [-> | Hr].
  - now rewrite Ropp_0.
  - rewrite !pow_m2_Fin_nonzero by lra.
    do 2 f_equal. ring.
Qed.

(** A product of a factor at most zero and a factor at least zero. *)
Lemma dmul_nonpos_nonneg (g t : R) :
  g <= 0 -> 0 <= t -> dle (dmul (Fin g) (Fin t)) (Fin 0).
Proof. intros Hg Ht. simpl. apply rnd_nonpos. nra. Qed.

Lemma dmul_nonpos_nonpos (g t : R) :
  g <= 0 -> t <= 0 -> dle (Fin 0) (dmul (Fin g) (Fin t)).
Proof. intros Hg Ht. simpl. apply rnd_nonneg. nra. Qed.


Lemma dsqrt_Fin_nonneg (r : R) : 0 <= r -> dsqrt (Fin r) = Fin (sqrt r).
Proof.
  intros H. simpl.
  destruct (Rsign_cases r) as [[H1 E] | [[H1 E] | [H1 E]]]; rewrite E;
    trivial; lra.
Qed.

(** ** Auxiliary facts on vectors and the distance *)

Lemma sum_sq_diff_nonneg (a b : vec) : 0 <= metric.sum_sq_diff a b.
Proof.
  revert b. induction a as [| x a IH]; intros [| y b]; simpl; try lra.
  specialize (IH b).
  pose proof (Rle_0_sqr (x - y)) as Hsq. unfold Rsqr in Hsq. lra.
Qed.

Lemma sum_sq_diff_sym (a b : vec) :
  metric.sum_sq_diff a b = metric.sum_sq_diff b a.
Proof.
  revert b. induction a as [| x a IH]; intros [| y b]; simpl; trivial.
  rewrite (IH b). ring.
Qed.

Lemma sum_sq_diff_same (a : vec) : metric.sum_sq_diff a a = 0.
Proof.
  induction a as [| x a IH]; simpl; trivial.
  rewrite IH. ring.
Qed.

Lemma sum_sq_diff_vsub (a b : vec) :
  metric.sum_sq_diff a b = spec.sum_squares (spec.vsub a b).
Proof.
  revert b. induction a as [| x a IH]; intros [| y b]; simpl; trivial.
  now rewrite (IH b).
Qed.

Lemma SquaredEuclideanDistance_eq_length (a b : vec) :
  length a = length b ->
  metric.SquaredEuclideanDistance a b = Some (Fin (metric.sum_sq_diff a b)).
Proof.
  intros H. unfold metric.SquaredEuclideanDistance.
  now rewrite H, Nat.eqb_refl.
Qed.


Lemma SquaredEuclideanDistance_neq_length (a b : vec) :
  length a <> length b -> metric.SquaredEuclideanDistance a b = None.
Proof.
  intros H. unfold metric.SquaredEuclideanDistance.
  destruct (Nat.eqb_spec (length a) (length b)); [contradiction | reflexivity].
Qed.

(** The value [Evaluate] returns on vectors of equal length. *)
Lemma Evaluate_eq_length (k : ExponentialKernel) (a b : vec) :
  length a = length b ->
  Evaluate k a b =
  Some (dexp (dmul (gamma k) (Fin (sqrt (metric.sum_sq_diff a b))))).
Proof.
  intros H. unfold Evaluate.
  rewrite (SquaredEuclideanDistance_eq_length a b H).
  now rewrite dsqrt_Fin_nonneg by apply sum_sq_diff_nonneg.
Qed.


Lemma EuclideanDistance_nonneg (a b : vec) : 0 <= spec.EuclideanDistance a b.
Proof. unfold spec.EuclideanDistance, spec.norm. apply sqrt_pos. Qed.

Lemma EuclideanDistance_same (a : vec) : spec.EuclideanDistance a a = 0.
Proof.
  unfold spec.EuclideanDistance, spec.norm.
  now rewrite <- sum_sq_diff_vsub, sum_sq_diff_same, sqrt_0.
Qed.

(** ** The value computed by the two overloads *)



(** ** The two overloads agree *)

(** C4.  For every instance and every two vectors of equal length, the
    two-vector overload returns what the scalar overload returns on the
    square root of the squared Euclidean distance. *)
Theorem Evaluate_overloads_agree (k : ExponentialKernel) (a b : vec) :
  length a = length b ->
  exists d : double,
    metric.SquaredEuclideanDistance a b = Some d /\
    Evaluate k a b = Some (Evaluate_t k (dsqrt d)).
Proof.
  intros Hlen. exists (Fin (metric.sum_sq_diff a b)).
  split.
  - exact (SquaredEuclideanDistance_eq_length a b Hlen).
  - unfold Evaluate, Evaluate_t.
    now rewrite (SquaredEuclideanDistance_eq_length a b Hlen).
Qed.

Lemma Evaluate_overloads_agree_witness :
  exists d : double,
    metric.SquaredEuclideanDistance [1; 2; 3] [3; 2; 1] = Some d /\
    Evaluate ExponentialKernel_default [1; 2; 3] [3; 2; 1] =
    Some (Evaluate_t ExponentialKernel_default (dsqrt d)).
Proof.
  exact (Evaluate_overloads_agree ExponentialKernel_default
           [1; 2; 3] [3; 2; 1] eq_refl).
Defined.

(** ** Symmetry *)

(** C7.  For every instance and every two vectors of equal length,
    [Evaluate(a, b)] and [Evaluate(b, a)] return the same value. *)
Theorem Evaluate_symmetric (k : ExponentialKernel) (a b : vec) :
  length a = length b ->
  exists v : double,
    Evaluate k a b = Some v /\ Evaluate k b a = Some v.
Proof.
  intros Hlen.
  exists (dexp (dmul (gamma k) (Fin (sqrt (metric.sum_sq_diff a b))))).
  split.
  - now apply Evaluate_eq_length.
  - rewrite (sum_sq_diff_sym a b). now apply Evaluate_eq_length.
Qed.

Lemma Evaluate_symmetric_witness :
  exists v : double,
    Evaluate (ExponentialKernel_bw (Fin 2)) [0; 0] [2; 0] = Some v /\
    Evaluate (ExponentialKernel_bw (Fin 2)) [2; 0] [0; 0] = Some v.
Proof.
  exact (Evaluate_symmetric (ExponentialKernel_bw (Fin 2))
           [0; 0] [2; 0] eq_refl).
Defined.

(** ** Calls leave the instance as it is *)

Lemma invoke_state (c : call) (k : ExponentialKernel) : snd (invoke c k) = k.
Proof. now destruct c. Qed.

Lemma run_state (cs : list call) (k : ExponentialKernel) :
  snd (run cs k) = k.
Proof.
  revert k. induction cs as [| c cs IH]; intros k; simpl; trivial.
  destruct (invoke c k) as [v k1] eqn:Hc.
  specialize (IH k1).
  destruct (run cs k1) as [vs k2]. simpl in *.
  rewrite IH. now rewrite <- (invoke_state c k), Hc.
Qed.

Lemma run_length (cs : list call) (k : ExponentialKernel) :
  length (fst (run cs k)) = length cs.
Proof.
  revert k. induction cs as [| c cs IH]; intros k; simpl; trivial.
  destruct (invoke c k) as [v k1].
  specialize (IH k1).
  destruct (run cs k1) as [vs k2]. simpl in *. now rewrite IH.
Qed.

(** C9.  For every instance and every sequence of calls of [Evaluate]
    (either overload), [Bandwidth()] and [Gamma()], every call yields one
    result and the instance after the calls is the instance before them, so
    both fields
    keep the values they had at construction; hence a call returns the same
    value whatever calls came before it, in particular when it is repeated
    with equal arguments. *)
Theorem calls_leave_fields_unchanged (k : ExponentialKernel) (cs : list call) :
  length (fst (run cs k)) = length cs /\
  snd (run cs k) = k /\
  Bandwidth (snd (run cs k)) = Bandwidth k /\
  Gamma (snd (run cs k)) = Gamma k /\
  (forall (c : call) (cs' : list call),
      fst (invoke c (snd (run cs k))) = fst (invoke c (snd (run cs' k)))) /\
  (forall c : call,
      fst (run [c; c] (snd (run cs k))) = [fst (invoke c k); fst (invoke c k)]).
Proof.
  split; [apply run_length |].
  rewrite run_state.
  repeat split.
  - intros c cs'. now rewrite run_state.
  - intros c. simpl.
    destruct (invoke c k) as [v k1] eqn:Hc.
    assert (Hk : k1 = k) by (now rewrite <- (invoke_state c k), Hc).
    subst k1. now rewrite Hc.
Qed.


(** ** Auxiliary facts on rounding errors and on [exp] *)

(** In the range of the normal doubles the rounding moves a real by at most
    the fraction 2^-53 of it. *)
Lemma rnd_rel_error (x : R) :
  / IZR (2 ^ 1022) <= x -> x <= IZR (2 ^ 1023) ->
  exists y : R, rnd x = Fin y /\ Rabs (y - x) <= x / IZR (2 ^ 53).
Proof.
  intros Hlo Hhi. pose proof unit_pos as Hu.
  pose proof (IZR_pow2_pos 1022 ltac:(lia)) as H1022.
  pose proof (IZR_pow2_pos 52 ltac:(lia)) as H52.
  pose proof (IZR_pow2_pos 53 ltac:(lia)) as H53.
  assert (Hx : 0 < x).
  { apply Rlt_le_trans with (/ IZR (2 ^ 1022)); trivial.
    now apply Rinv_0_lt_compat. }
  set (X := x * IZR (2 ^ 1074)).
  assert (HX : IZR (2 ^ 52) <= X).
  { unfold X. replace 1074%Z with (52 + 1022)%Z by reflexivity.
    rewrite IZR_pow2_add by lia.
    apply Rmult_le_compat_r with (r := IZR (2 ^ 1022)) in Hlo; [| lra].
    rewrite Rinv_l in Hlo by lra.
    replace (x * (IZR (2 ^ 52) * IZR (2 ^ 1022)))
      with (IZR (2 ^ 52) * (x * IZR (2 ^ 1022))) by ring.
    rewrite <- (Rmult_1_r (IZR (2 ^ 52))) at 1.
    apply Rmult_le_compat_l; lra. }
  set (k := Zfloor X).
  assert (Hk : (2 ^ 52 <= k)%Z) by now apply Zfloor_lub.
  assert (Hkpos : (0 < k)%Z).
  { assert (0 < 2 ^ 52)%Z by (apply Z.pow_pos_nonneg; lia). lia. }
  assert (Hlog : (52 <= Z.log2 k)%Z) by now apply Z.log2_le_pow2.
  set (s := shift_of k).
  assert (Hs : s = (Z.log2 k - 52)%Z) by (unfold s, shift_of; lia).
  assert (Hs0 : (0 <= s)%Z) by lia.
  pose proof (IZR_pow2_pos s Hs0) as Hps.
  assert (Hbin : IZR (2 ^ s) * IZR (2 ^ 52) <= X).
  { rewrite <- IZR_pow2_add by lia.
    replace (s + 52)%Z with (Z.log2 k) by lia.
    pose proof (Z.log2_spec k Hkpos) as [Hdn _].
    apply IZR_le in Hdn. pose proof (Zfloor_bound X) as [Hfl _].
    fold k in Hfl. lra. }
  set (N := round_units X).
  assert (HN : Rabs (IZR N - X) <= IZR (2 ^ s) / 2).
  { unfold N, round_units. fold k s. rewrite mult_IZR.
    pose proof (Znearest_even_error (X / IZR (2 ^ s))) as He.
    replace (IZR (Znearest_even (X / IZR (2 ^ s))) * IZR (2 ^ s) - X)
      with ((IZR (Znearest_even (X / IZR (2 ^ s))) - X / IZR (2 ^ s))
            * IZR (2 ^ s)) by (field; lra).
    rewrite Rabs_mult, (Rabs_pos_eq (IZR (2 ^ s))) by lra.
    apply Rmult_le_compat_r with (r := IZR (2 ^ s)) in He; lra. }
  assert (Hfin : is_finite (rnd x)).
  { apply (rnd_finite_between 0 x (IZR (2 ^ 1023))); try lra.
    - now rewrite rnd_0.
    - now rewrite rnd_pow2 by lia. }
  rewrite rnd_nonneg_eq in * by lra.
  destruct (round_abs_cases x) as [[_ E] | [_ E]]; rewrite E in *;
    [| contradiction].
  fold X N. exists (IZR N / IZR (2 ^ 1074)). split; trivial.
  replace (IZR N / IZR (2 ^ 1074) - x)
    with ((IZR N - X) / IZR (2 ^ 1074)) by (unfold X; field; lra).
  unfold Rdiv at 1. rewrite Rabs_mult, (Rabs_pos_eq (/ IZR (2 ^ 1074))).
  2:{ left. now apply Rinv_0_lt_compat. }
  assert (Hbound : IZR (2 ^ s) / 2 <= X / IZR (2 ^ 53)).
  { replace 53%Z with (52 + 1)%Z by reflexivity.
    rewrite IZR_pow2_add by lia. change (IZR (2 ^ 1)) with 2.
    apply Rmult_le_reg_r with (IZR (2 ^ 52) * 2); [lra |].
    replace (X / (IZR (2 ^ 52) * 2) * (IZR (2 ^ 52) * 2)) with X
      by (field; lra).
    lra. }
  replace (x / IZR (2 ^ 53))
    with (X / IZR (2 ^ 53) * / IZR (2 ^ 1074)) by (unfold X; field; lra).
  apply Rmult_le_compat_r.
  - left. now apply Rinv_0_lt_compat.
  - lra.
Qed.

Lemma pow2_le_exp (n : nat) : 2 ^ n <= exp (INR n).
Proof.
  induction n as [| n IH].
  - simpl. rewrite exp_0. lra.
  - rewrite S_INR, exp_plus. simpl pow.
    pose proof (exp_ineq1_le 1) as H1.
    pose proof (exp_pos (INR n)) as Hp.
    assert (H2 : 0 <= 2 ^ n) by (apply pow_le; lra).
    apply Rle_trans with (2 ^ n * 2); [lra |].
    apply Rmult_le_compat; lra.
Qed.

(** [exp] of an argument below -1075 is less than half the smallest
    double. *)
Lemma exp_tiny (x : R) : x <= - 1075 -> exp x <= / IZR (2 ^ 1075).
Proof.
  intros H.
  pose proof (pow2_le_exp 1075) as Hp.
  rewrite pow_IZR, INR_IZR_INZ in Hp.
  change (Z.of_nat 1075) with 1075%Z in Hp.
  pose proof (IZR_pow2_pos 1075 ltac:(lia)) as Hpos.
  apply Rle_trans with (exp (- 1075)).
  - destruct H as [H | ->]; [left; now apply exp_increasing | lra].
  - replace (-1075) with (Ropp 1075) by lra.
    rewrite exp_Ropp. apply Rinv_le_contravar; trivial.
Qed.

(** So [exp] underflows to zero there. *)
Lemma dexp_underflow (x : double) : dle x (Fin (- 1075)) -> dexp x = Fin 0.
Proof.
  intros H. destruct x as [r | | |]; simpl in H; try contradiction; trivial.
  simpl. apply rnd_underflow.
  - left. apply exp_pos.
  - now apply exp_tiny.
Qed.

(** ** Auxiliary facts on the stored gamma *)

(** Gamma of an instance built from bandwidth zero. *)
Lemma gamma_bw_zero : gamma (ExponentialKernel_bw (Fin 0)) = NInf.
Proof.
  unfold ExponentialKernel_bw. cbn [gamma].
  rewrite pow_m2_zero. simpl.
  now rewrite Rsign_Lt by lra.
Qed.

Lemma dmul_half_PInf : dmul (Fin (- (1 / 2))) PInf = NInf.
Proof. simpl. now rewrite Rsign_Lt by lra. Qed.

(** The sign of the bandwidth does not reach gamma. *)
Lemma gamma_bw_opp (b : R) :
  gamma (ExponentialKernel_bw (Fin (- b))) = gamma (ExponentialKernel_bw (Fin b)).
Proof. unfold ExponentialKernel_bw. cbn [gamma]. now rewrite pow_m2_opp. Qed.

(** Gamma of a real bandwidth is minus infinity or a finite number that is
    at most zero. *)
Lemma gamma_bw_nonpos (mu : R) :
  dle (gamma (ExponentialKernel_bw (Fin mu))) (Fin 0).
Proof.
  unfold ExponentialKernel_bw. cbn [gamma].
  destruct (dle_Fin_0_cases _ (pow_m2_nonneg mu)) as [-> | [p [-> Hp]]].
  - now rewrite dmul_half_PInf.
  - apply dmul_nonpos_nonneg; lra.
Qed.

Lemma gamma_bw_not_NaN (mu : R) : gamma (ExponentialKernel_bw (Fin mu)) <> NaN.
Proof. exact (dle_not_NaN_l _ _ (gamma_bw_nonpos mu)). Qed.

Lemma Rabs_le_bounds (a b : R) : Rabs a <= b -> - b <= a <= b.
Proof. unfold Rabs. destruct (Rcase_abs a); lra. Qed.

Lemma sqr_Rabs (mu : R) : mu * mu = Rabs mu * Rabs mu.
Proof.
  unfold Rabs. destruct (Rcase_abs mu); ring.
Qed.

Lemma inv_pow2_le (m n : Z) :
  (0 <= m <= n)%Z -> / IZR (2 ^ n) <= / IZR (2 ^ m).
Proof.
  intros H. apply Rinv_le_contravar.
  - apply IZR_pow2_pos. lia.
  - apply IZR_le. apply Z.pow_le_mono_r; lia.
Qed.

(** The inverse square of a bandwidth of moderate size. *)
Lemma inv_sqr_moderate (mu : R) :
  / IZR (2 ^ 500) <= Rabs mu -> Rabs mu <= IZR (2 ^ 500) ->
  mu <> 0 /\ / IZR (2 ^ 1000) <= / (mu * mu) <= IZR (2 ^ 1000).
Proof.
  intros Hlo Hhi.
  pose proof (IZR_pow2_pos 500 ltac:(lia)) as H500.
  pose proof (IZR_pow2_pos 1000 ltac:(lia)) as H1000.
  assert (Hinv : 0 < / IZR (2 ^ 500)) by now apply Rinv_0_lt_compat.
  assert (Ha : 0 < Rabs mu) by lra.
  assert (Hmu : mu <> 0).
  { intros ->. rewrite Rabs_R0 in Ha. lra. }
  assert (Hsq : 0 < mu * mu) by (rewrite sqr_Rabs; now apply Rmult_lt_0_compat).
  assert (E : IZR (2 ^ 1000) = IZR (2 ^ 500) * IZR (2 ^ 500)).
  { replace 1000%Z with (500 + 500)%Z by reflexivity.
    apply IZR_pow2_add; lia. }
  split; [exact Hmu | split].
  - apply Rinv_le_contravar; trivial.
    rewrite sqr_Rabs, E. apply Rmult_le_compat; lra.
  - rewrite <- (Rinv_inv (IZR (2 ^ 1000))).
    apply Rinv_le_contravar; [now apply Rinv_0_lt_compat |].
    rewrite sqr_Rabs, E, Rinv_mult. apply Rmult_le_compat; lra.
Qed.

(** Gamma of a bandwidth of moderate size: finite, negative, and within the
    fraction 2^-51 of [-1 / (2 * mu^2)]. *)
Lemma gamma_bw_moderate (mu : R) :
  / IZR (2 ^ 500) <= Rabs mu -> Rabs mu <= IZR (2 ^ 500) ->
  exists g : R,
    gamma (ExponentialKernel_bw (Fin mu)) = Fin g /\
    g < 0 /\
    Rabs (g - (- 1 / (2 * (mu * mu))))
    <= 1 / (2 * (mu * mu)) / IZR (2 ^ 51).
Proof.
  intros Hlo Hhi.
  destruct (inv_sqr_moderate mu Hlo Hhi) as [Hmu [Hq1 Hq2]].
  set (q := / (mu * mu)) in *.
  pose proof (IZR_pow2_pos 1000 ltac:(lia)) as H1000.
  pose proof (IZR_pow2_pos 53 ltac:(lia)) as H53.
  assert (Hq0 : 0 < q).
  { apply Rlt_le_trans with (/ IZR (2 ^ 1000)); trivial.
    now apply Rinv_0_lt_compat. }
  assert (Hlow : / IZR (2 ^ 1022) <= / IZR (2 ^ 1002))
    by (apply inv_pow2_le; lia).
  assert (Hlow' : / IZR (2 ^ 1002) = / IZR (2 ^ 1000) / 4).
  { replace 1002%Z with (1000 + 2)%Z by reflexivity.
    rewrite IZR_pow2_add by lia. change (IZR (2 ^ 2)) with 4.
    field. lra. }
  assert (Hup : IZR (2 ^ 1000) <= IZR (2 ^ 1023))
    by (apply IZR_le, Z.pow_le_mono_r; lia).
  assert (Hup' : IZR (2 ^ 1001) = 2 * IZR (2 ^ 1000)).
  { replace 1001%Z with (1 + 1000)%Z by reflexivity.
    now rewrite IZR_pow2_add by lia. }
  set (e := / IZR (2 ^ 53)).
  assert (He0 : 0 < e) by now apply Rinv_0_lt_compat.
  assert (He1 : e <= / 2).
  { unfold e. change (/ IZR (2 ^ 53) <= / IZR (2 ^ 1)).
    apply inv_pow2_le. lia. }
  assert (E51 : / IZR (2 ^ 51) = 4 * e).
  { unfold e. replace 53%Z with (2 + 51)%Z by reflexivity.
    rewrite IZR_pow2_add by lia. change (IZR (2 ^ 2)) with 4.
    pose proof (IZR_pow2_pos 51 ltac:(lia)). field. lra. }
  (* the rounding of pow *)
  destruct (rnd_rel_error q) as [p [Hp Hpe]]; [lra | lra |].
  fold e in Hpe. change (q / IZR (2 ^ 53)) with (q * e) in Hpe.
  assert (Hqe : 0 < q * e) by now apply Rmult_lt_0_compat.
  assert (Hqe2 : q * e <= q / 2).
  { unfold Rdiv. apply Rmult_le_compat_l; lra. }
  apply Rabs_le_bounds in Hpe.
  (* the rounding of the product *)
  destruct (rnd_rel_error (p / 2)) as [y [Hy Hye]]; [lra | lra |].
  change (p / 2 / IZR (2 ^ 53)) with (p / 2 * e) in Hye.
  assert (Hpe2 : p / 2 * e <= q * e).
  { apply Rmult_le_compat_r; lra. }
  assert (Hpe3 : 0 <= p / 2 * e) by (apply Rmult_le_pos; lra).
  assert (Hpe4 : p / 2 * e <= p / 4).
  { replace (p / 4) with (p / 2 * / 2) by field.
    apply Rmult_le_compat_l; lra. }
  apply Rabs_le_bounds in Hye.
  exists (- y). split; [| split].
  - unfold ExponentialKernel_bw. cbn [gamma].
    rewrite (pow_m2_Fin_nonzero mu Hmu). fold q. rewrite Hp. simpl.
    replace (- (1 / 2) * p) with (- (p / 2)) by field.
    now rewrite rnd_opp, Hy.
  - lra.
  - replace (1 / (2 * (mu * mu))) with (q / 2) by (unfold q; field; lra).
    replace (- 1 / (2 * (mu * mu))) with (- (q / 2))
      by (unfold q; field; lra).
    change (q / 2 / IZR (2 ^ 51)) with (q / 2 * / IZR (2 ^ 51)).
    rewrite E51.
    apply Rabs_le. lra.
Qed.

(** Gamma is finite as soon as the bandwidth is not tiny. *)
Lemma gamma_bw_finite (mu : R) :
  / IZR (2 ^ 500) <= Rabs mu ->
  is_finite (gamma (ExponentialKernel_bw (Fin mu))).
Proof.
  intros Hlo.
  pose proof (IZR_pow2_pos 500 ltac:(lia)) as H500.
  pose proof (IZR_pow2_pos 1000 ltac:(lia)) as H1000.
  assert (Hinv : 0 < / IZR (2 ^ 500)) by now apply Rinv_0_lt_compat.
  assert (Ha : 0 < Rabs mu) by lra.
  assert (Hmu : mu <> 0).
  { intros ->. rewrite Rabs_R0 in Ha. lra. }
  assert (Hsq : 0 < mu * mu) by (rewrite sqr_Rabs; now apply Rmult_lt_0_compat).
  assert (Hq : / (mu * mu) <= IZR (2 ^ 1000)).
  { rewrite <- (Rinv_inv (IZR (2 ^ 1000))).
    apply Rinv_le_contravar; [now apply Rinv_0_lt_compat |].
    replace 1000%Z with (500 + 500)%Z by reflexivity.
    rewrite IZR_pow2_add, Rinv_mult, (sqr_Rabs mu) by lia.
    apply Rmult_le_compat; lra. }
  assert (Hq0 : 0 < / (mu * mu)) by now apply Rinv_0_lt_compat.
  unfold ExponentialKernel_bw. cbn [gamma].
  rewrite (pow_m2_Fin_nonzero mu Hmu).
  pose proof (rnd_le _ _ Hq) as Hle. rewrite rnd_pow2 in Hle by lia.
  pose proof (rnd_nonneg (/ (mu * mu)) ltac:(lra)) as Hge.
  destruct (rnd (/ (mu * mu))) as [p | | |]; simpl in Hle, Hge;
    try contradiction.
  simpl.
  apply (rnd_finite_between (- IZR (2 ^ 1000)) _ 0); try lra.
  - now rewrite rnd_opp, rnd_pow2 by lia.
  - now rewrite rnd_0.
Qed.

(** A bandwidth so small that [pow] overflows gives minus infinity. *)
Lemma gamma_bw_tiny (mu : R) :
  mu <> 0 -> Rabs mu <= / IZR (2 ^ 512) ->
  gamma (ExponentialKernel_bw (Fin mu)) = NInf.
Proof.
  intros Hmu Hhi.
  pose proof (IZR_pow2_pos 512 ltac:(lia)) as H512.
  pose proof (IZR_pow2_pos 1024 ltac:(lia)) as H1024.
  assert (Ha : 0 < Rabs mu) by now apply Rabs_pos_lt.
  assert (Hsq : 0 < mu * mu) by (rewrite sqr_Rabs; now apply Rmult_lt_0_compat).
  assert (Hq : IZR (2 ^ 1024) <= / (mu * mu)).
  { rewrite <- (Rinv_inv (IZR (2 ^ 1024))).
    apply Rinv_le_contravar; trivial.
    replace 1024%Z with (512 + 512)%Z by reflexivity.
    rewrite IZR_pow2_add, Rinv_mult, (sqr_Rabs mu) by lia.
    apply Rmult_le_compat; lra. }
  unfold ExponentialKernel_bw. cbn [gamma].
  rewrite (pow_m2_Fin_nonzero mu Hmu), (rnd_overflow _ Hq).
  apply dmul_half_PInf.
Qed.

Lemma gamma_bw_one : gamma (ExponentialKernel_bw (Fin 1)) = Fin (- (1 / 2)).
Proof.
  unfold ExponentialKernel_bw. cbn [gamma].
  rewrite pow_m2_Fin_nonzero by lra.
  replace (/ (1 * 1)) with 1 by field. rewrite rnd_1. simpl.
  replace (- (1 / 2) * 1) with (- / IZR (2 ^ 1))
    by (change (IZR (2 ^ 1)) with 2; lra).
  rewrite rnd_opp_inv_pow2 by lia. f_equal.
  change (IZR (2 ^ 1)) with 2. lra.
Qed.

Lemma gamma_bw_minus_two :
  gamma (ExponentialKernel_bw (Fin (-2))) = Fin (- (1 / 8)).
Proof.
  unfold ExponentialKernel_bw. cbn [gamma].
  rewrite pow_m2_Fin_nonzero by lra.
  replace (/ (-2 * -2)) with (/ IZR (2 ^ 2))
    by (change (IZR (2 ^ 2)) with 4; f_equal; lra).
  rewrite rnd_inv_pow2 by lia. cbn [dmul].
  replace (- (1 / 2) * / IZR (2 ^ 2)) with (- / IZR (2 ^ 3))
    by (change (IZR (2 ^ 2)) with 4; change (IZR (2 ^ 3)) with 8; lra).
  rewrite rnd_opp_inv_pow2 by lia. f_equal.
  change (IZR (2 ^ 3)) with 8. lra.
Qed.

(** Bandwidth 2 is of moderate size. *)
Lemma two_moderate : / IZR (2 ^ 500) <= Rabs 2 /\ Rabs 2 <= IZR (2 ^ 500).
Proof.
  rewrite Rabs_pos_eq by lra.
  pose proof (IZR_pow2_pos 500 ltac:(lia)) as Hp.
  assert (H1 : IZR (2 ^ 1) <= IZR (2 ^ 500))
    by (apply IZR_le, Z.pow_le_mono_r; lia).
  change (IZR (2 ^ 1)) with 2 in H1.
  split; [| exact H1].
  apply Rle_trans with 1; [| lra].
  rewrite <- Rinv_1. apply Rinv_le_contravar; lra.
Qed.

(** ** Auxiliary facts on the two overloads *)

Lemma Evaluate_t_gamma_NInf (k : ExponentialKernel) (t : R) :
  gamma k = NInf ->
  Evaluate_t k (Fin t) =
  match Rsign t with
  | Gt => Fin 0
  | Eq => NaN
  | Lt => PInf
  end.
Proof.
  intros Hg. unfold Evaluate_t. rewrite Hg. simpl.
  now destruct (Rsign t).
Qed.

(** The two-vector overload is the scalar one on the distance. *)
Lemma Evaluate_on_distance (k : ExponentialKernel) (a b : vec) :
  length a = length b ->
  Evaluate k a b = Some (Evaluate_t k (Fin (spec.EuclideanDistance a b))).
Proof.
  intros Hlen. rewrite (Evaluate_eq_length k a b Hlen).
  unfold Evaluate_t, spec.EuclideanDistance, spec.norm.
  now rewrite sum_sq_diff_vsub.
Qed.

Lemma EuclideanDistance_0_t (t : R) :
  0 <= t -> spec.EuclideanDistance [0] [t] = t.
Proof.
  intros Ht. unfold spec.EuclideanDistance, spec.norm. simpl.
  replace ((0 - t) * (0 - t) + 0) with (t * t) by ring.
  now apply sqrt_square.
Qed.

(** With a gamma that is at most zero and a positive argument the product
    is at most zero. *)
Lemma dmul_gamma_pos (x : double) (t : R) :
  dle x (Fin 0) -> 0 < t -> dle (dmul x (Fin t)) (Fin 0).
Proof.
  intros Hx Ht.
  destruct (dle_cases_Fin_0 x Hx) as [-> | [g [-> Hg]]].
  - simpl. rewrite (Rsign_Gt t Ht). exact I.
  - apply dmul_nonpos_nonneg; lra.
Qed.

Lemma Evaluate_t_pos_range (k : ExponentialKernel) (t : R) :
  dle (gamma k) (Fin 0) -> 0 < t ->
  dle (Fin 0) (Evaluate_t k (Fin t)) /\ dle (Evaluate_t k (Fin t)) (Fin 1).
Proof.
  intros Hg Ht. unfold Evaluate_t.
  apply dexp_nonpos_range. now apply dmul_gamma_pos.
Qed.

Lemma Evaluate_t_finite_gamma_0 (k : ExponentialKernel) :
  is_finite (gamma k) -> Evaluate_t k (Fin 0) = Fin 1.
Proof.
  intros Hfin. unfold Evaluate_t.
  destruct (gamma k) as [g | | |]; try contradiction.
  rewrite dmul_0_r. apply dexp_0.
Qed.

(** Once the product of gamma and the argument is at most -1075 the result
    is exactly zero. *)
Lemma Evaluate_t_underflow (k : ExponentialKernel) (g t : R) :
  gamma k = Fin g -> g * t <= - 1075 -> Evaluate_t k (Fin t) = Fin 0.
Proof.
  intros Hg Hgt. unfold Evaluate_t. rewrite Hg.
  apply dexp_underflow. simpl dmul.
  replace (Fin (-1075)) with (rnd (IZR (-1075)))
    by (apply rnd_int; reflexivity).
  now apply rnd_le.
Qed.

(** ** Range of the kernel *)

(** C3, as stated, fails.  With bandwidth 1 and the vectors (0) and (3000)
    the argument of [exp] is -1500 and the result underflows to exactly 0;
    with the bandwidth 2^-600 [pow] overflows, gamma is minus infinity and
    two identical vectors give NaN. *)
Lemma Evaluate_outside_unit_interval :
  (representable 1 /\ representable 3000 /\
   representable (/ IZR (2 ^ 600))) /\
  Evaluate (ExponentialKernel_bw (Fin 1)) [0] [3000] = Some (Fin 0) /\
  Evaluate (ExponentialKernel_bw (Fin (/ IZR (2 ^ 600)))) [0] [0] = Some NaN /\
  ~ (forall (mu : R) (a b : vec),
        0 < mu -> length a = length b ->
        exists v : double,
          Evaluate (ExponentialKernel_bw (Fin mu)) a b = Some v /\
          dlt (Fin 0) v /\ dle v (Fin 1)).
Proof.
  assert (H1 : Evaluate (ExponentialKernel_bw (Fin 1)) [0] [3000]
               = Some (Fin 0)).
  { rewrite (Evaluate_on_distance _ [0] [3000] eq_refl).
    rewrite EuclideanDistance_0_t by lra. f_equal.
    apply (Evaluate_t_underflow _ _ _ gamma_bw_one). lra. }
  assert (H2 : Evaluate (ExponentialKernel_bw (Fin (/ IZR (2 ^ 600)))) [0] [0]
               = Some NaN).
  { rewrite (Evaluate_on_distance _ [0] [0] eq_refl).
    rewrite EuclideanDistance_same. f_equal.
    pose proof (IZR_pow2_pos 600 ltac:(lia)) as Hp.
    assert (Hi : 0 < / IZR (2 ^ 600)) by now apply Rinv_0_lt_compat.
    rewrite Evaluate_t_gamma_NInf.
    - now rewrite Rsign_Eq.
    - apply gamma_bw_tiny; [lra |].
      rewrite Rabs_pos_eq by lra. apply inv_pow2_le. lia. }
  split; [| split; [exact H1 | split; [exact H2 |]]].
  { split; [exact rnd_1 | split].
    - exact (rnd_int 3000 ltac:(reflexivity)).
    - apply rnd_inv_pow2. lia. }
  intros Hall.
  destruct (Hall 1 [0] [3000] ltac:(lra) eq_refl) as [v [Hv [Hpos _]]].
  rewrite H1 in Hv. injection Hv as <-. simpl in Hpos. lra.
Qed.

(** C3, amended.  For an instance constructed with a bandwidth [mu > 0] and
    two vectors of equal length, [Evaluate(a, b)] returns a value that is at
    least 0 and at most 1, or it returns NaN; it is not NaN when the stored
    gamma is finite and negative, as it is for [2^-500 <= mu <= 2^500]. *)
Theorem Evaluate_in_unit_interval (mu : R) (a b : vec) :
  0 < mu ->
  length a = length b ->
  exists v : double,
    Evaluate (ExponentialKernel_bw (Fin mu)) a b = Some v /\
    ((dle (Fin 0) v /\ dle v (Fin 1)) \/ v = NaN) /\
    ((exists g : R,
         Gamma (ExponentialKernel_bw (Fin mu)) = Fin g /\ g < 0) ->
     dle (Fin 0) v /\ dle v (Fin 1)) /\
    (/ IZR (2 ^ 500) <= mu -> mu <= IZR (2 ^ 500) ->
     dle (Fin 0) v /\ dle v (Fin 1)).
Proof.
  intros Hmu Hlen.
  exists (Evaluate_t (ExponentialKernel_bw (Fin mu))
            (Fin (spec.EuclideanDistance a b))).
  split; [now apply Evaluate_on_distance |].
  assert (Hfin : is_finite (gamma (ExponentialKernel_bw (Fin mu))) ->
                 dle (Fin 0) (Evaluate_t (ExponentialKernel_bw (Fin mu))
                                (Fin (spec.EuclideanDistance a b))) /\
                 dle (Evaluate_t (ExponentialKernel_bw (Fin mu))
                        (Fin (spec.EuclideanDistance a b))) (Fin 1)).
  { intros Hf. pose proof (EuclideanDistance_nonneg a b) as [Hd | Hd].
    - apply Evaluate_t_pos_range; trivial. apply gamma_bw_nonpos.
    - rewrite <- Hd, (Evaluate_t_finite_gamma_0 _ Hf). simpl. lra. }
  split; [| split].
  - pose proof (EuclideanDistance_nonneg a b) as [Hd | Hd].
    + left. apply Evaluate_t_pos_range; trivial. apply gamma_bw_nonpos.
    + rewrite <- Hd.
      destruct (dle_cases_Fin_0 _ (gamma_bw_nonpos mu)) as [Hg | [g [Hg _]]].
      * right. rewrite (Evaluate_t_gamma_NInf _ 0 Hg). now rewrite Rsign_Eq.
      * left. rewrite Evaluate_t_finite_gamma_0 by now rewrite Hg.
        simpl. lra.
  - intros [g [Hg _]]. apply Hfin. unfold Gamma in Hg. now rewrite Hg.
  - intros Hlo Hhi. apply Hfin, gamma_bw_finite.
    now rewrite Rabs_pos_eq by lra.
Qed.

Lemma Evaluate_in_unit_interval_witness :
  exists v : double,
    Evaluate (ExponentialKernel_bw (Fin 2)) [0; 0] [2; 0] = Some v /\
    dle (Fin 0) v /\ dle v (Fin 1).
Proof.
  assert (H2 : 0 < 2) by lra.
  destruct two_moderate as [Hlo Hhi]. rewrite Rabs_pos_eq in Hlo, Hhi by lra.
  destruct (Evaluate_in_unit_interval 2 [0; 0] [2; 0] H2 eq_refl)
    as [v [Hv [_ [_ Hr]]]].
  exists v. split; [exact Hv | exact (Hr Hlo Hhi)].
Defined.

(** ** Value at distance zero *)

(** C5, as stated, fails: an instance constructed with bandwidth 0 stores
    gamma = minus infinity, and [Evaluate(0)] is then exp of the product of
    infinity and zero, NaN, not 1. *)
Lemma Evaluate_t_zero_bandwidth_zero_is_NaN :
  Evaluate_t (ExponentialKernel_bw (Fin 0)) (Fin 0) = NaN /\
  ~ (forall mu : R, Evaluate_t (ExponentialKernel_bw (Fin mu)) (Fin 0) = Fin 1).
Proof.
  assert (H : Evaluate_t (ExponentialKernel_bw (Fin 0)) (Fin 0) = NaN).
  { rewrite (Evaluate_t_gamma_NInf _ 0 gamma_bw_zero). now rewrite Rsign_Eq. }
  split; [exact H |].
  intros Hall. specialize (Hall 0). rewrite H in Hall. discriminate Hall.
Qed.

(** C5, amended.  On every instance whose stored gamma is finite,
    [Evaluate(a, a)] is 1 for every vector [a] and [Evaluate(0)] is 1.  The
    gamma of the default instance is finite, and so is that of an instance
    constructed with a bandwidth of magnitude 2^-500 or more, positive or
    negative.  With the bandwidth 0, or one of magnitude 2^-512 or less,
    gamma is minus infinity and [Evaluate(0)] is NaN. *)
Theorem Evaluate_at_distance_zero :
  (forall k : ExponentialKernel,
      is_finite (Gamma k) ->
      Evaluate_t k (Fin 0) = Fin 1 /\
      forall a : vec, Evaluate k a a = Some (Fin 1)) /\
  is_finite (Gamma ExponentialKernel_default) /\
  (forall mu : R,
      / IZR (2 ^ 500) <= Rabs mu ->
      is_finite (Gamma (ExponentialKernel_bw (Fin mu)))) /\
  (forall mu : R,
      Rabs mu <= / IZR (2 ^ 512) ->
      Gamma (ExponentialKernel_bw (Fin mu)) = NInf /\
      Evaluate_t (ExponentialKernel_bw (Fin mu)) (Fin 0) = NaN).
Proof.
  split; [| split; [exact I | split]].
  - intros k Hfin. unfold Gamma in Hfin.
    pose proof (Evaluate_t_finite_gamma_0 k Hfin) as H0.
    split; [exact H0 |].
    intros a. rewrite (Evaluate_on_distance k a a eq_refl).
    now rewrite EuclideanDistance_same, H0.
  - intros mu Hmu. now apply gamma_bw_finite.
  - intros mu Hmu.
    assert (Hg : gamma (ExponentialKernel_bw (Fin mu)) = NInf).
    { destruct (Req_dec mu 0) as [-> | Hnz].
      - apply gamma_bw_zero.
      - now apply gamma_bw_tiny. }
    split; [exact Hg |].
    rewrite (Evaluate_t_gamma_NInf _ 0 Hg). now rewrite Rsign_Eq.
Qed.

Lemma Evaluate_at_distance_zero_witness :
  (Evaluate_t ExponentialKernel_default (Fin 0) = Fin 1 /\
   forall a : vec, Evaluate ExponentialKernel_default a a = Some (Fin 1)) /\
  is_finite (Gamma (ExponentialKernel_bw (Fin 2))) /\
  (Gamma (ExponentialKernel_bw (Fin 0)) = NInf /\
   Evaluate_t (ExponentialKernel_bw (Fin 0)) (Fin 0) = NaN).
Proof.
  split; [| split].
  - exact (proj1 Evaluate_at_distance_zero ExponentialKernel_default I).
  - exact (proj1 (proj2 (proj2 Evaluate_at_distance_zero)) 2
             (proj1 two_moderate)).
  - apply (proj2 (proj2 (proj2 Evaluate_at_distance_zero)) 0).
    rewrite Rabs_R0. left. apply Rinv_0_lt_compat, IZR_pow2_pos. lia.
Defined.

(** ** Monotonicity *)





(** ** Construction *)

Lemma gamma_bw_two : gamma (ExponentialKernel_bw (Fin 2)) = Fin (- (1 / 8)).
Proof.
  unfold ExponentialKernel_bw. cbn [gamma].
  rewrite pow_m2_Fin_nonzero by lra.
  replace (/ (2 * 2)) with (/ IZR (2 ^ 2))
    by (change (IZR (2 ^ 2)) with 4; f_equal; lra).
  rewrite rnd_inv_pow2 by lia. cbn [dmul].
  replace (- (1 / 2) * / IZR (2 ^ 2)) with (- / IZR (2 ^ 3))
    by (change (IZR (2 ^ 2)) with 4; change (IZR (2 ^ 3)) with 8; lra).
  rewrite rnd_opp_inv_pow2 by lia. f_equal.
  change (IZR (2 ^ 3)) with 8. lra.
Qed.

(** Bandwidth 2^512: [pow] returns 2^-1024 and gamma is -2^-1025, while the
    square of the bandwidth overflows. *)
Lemma gamma_bw_pow2_512 :
  gamma (ExponentialKernel_bw (Fin (IZR (2 ^ 512)))) = Fin (- / IZR (2 ^ 1025)).
Proof.
  pose proof (IZR_pow2_pos 512 ltac:(lia)) as H512.
  pose proof (IZR_pow2_pos 1024 ltac:(lia)) as H1024.
  unfold ExponentialKernel_bw. cbn [gamma].
  rewrite pow_m2_Fin_nonzero by lra.
  rewrite <- IZR_pow2_add by lia. change (512 + 512)%Z with 1024%Z.
  rewrite rnd_inv_pow2 by lia. cbn [dmul].
  replace (- (1 / 2) * / IZR (2 ^ 1024)) with (- / IZR (2 ^ 1025)).
  - apply rnd_opp_inv_pow2. lia.
  - replace 1025%Z with (1 + 1024)%Z by reflexivity.
    rewrite IZR_pow2_add by lia. change (IZR (2 ^ 1)) with 2. field. lra.
Qed.

Lemma gamma_of_pow2_512 : spec.gamma_of (Fin (IZR (2 ^ 512))) = Fin 0.
Proof.
  unfold spec.gamma_of. cbn [dmul].
  rewrite <- IZR_pow2_add by lia. change (512 + 512)%Z with 1024%Z.
  rewrite (rnd_overflow _ (Rle_refl _)). simpl.
  now rewrite Rsign_Gt by lra.
Qed.

Lemma gamma_bw_inv_pow2_600 :
  gamma (ExponentialKernel_bw (Fin (/ IZR (2 ^ 600)))) = NInf.
Proof.
  pose proof (IZR_pow2_pos 600 ltac:(lia)) as Hp.
  assert (Hi : 0 < / IZR (2 ^ 600)) by now apply Rinv_0_lt_compat.
  apply gamma_bw_tiny; [lra |].
  rewrite Rabs_pos_eq by lra. apply inv_pow2_le. lia.
Qed.

(** C2, as stated, fails.  With the bandwidth 2^-600 [pow] overflows and
    the stored gamma is minus infinity, not the finite number
    [-1 / (2 * mu^2)].  With the bandwidth 2^512 the stored gamma is
    -2^-1025, while [-1 / (2 * Bandwidth()^2)] evaluated on doubles is zero,
    the square overflowing. *)
Lemma Gamma_differs_from_formula :
  (representable (/ IZR (2 ^ 600)) /\ representable (IZR (2 ^ 512))) /\
  Gamma (ExponentialKernel_bw (Fin (/ IZR (2 ^ 600)))) = NInf /\
  ~ (forall mu : R,
        mu <> 0 ->
        Gamma (ExponentialKernel_bw (Fin mu)) = Fin (- 1 / (2 * (mu * mu)))) /\
  Gamma (ExponentialKernel_bw (Fin (IZR (2 ^ 512)))) = Fin (- / IZR (2 ^ 1025)) /\
  spec.gamma_of (Bandwidth (ExponentialKernel_bw (Fin (IZR (2 ^ 512))))) = Fin 0 /\
  ~ (forall mu : R,
        Gamma (ExponentialKernel_bw (Fin mu)) =
        spec.gamma_of (Bandwidth (ExponentialKernel_bw (Fin mu)))).
Proof.
  pose proof (IZR_pow2_pos 600 ltac:(lia)) as H600.
  pose proof (IZR_pow2_pos 1025 ltac:(lia)) as H1025.
  split; [| split; [exact gamma_bw_inv_pow2_600 | split; [| split; [| split]]]].
  - split; [apply rnd_inv_pow2 | apply rnd_pow2]; lia.
  - intros Hall.
    assert (Hnz : / IZR (2 ^ 600) <> 0) by (apply Rinv_neq_0_compat; lra).
    specialize (Hall _ Hnz). unfold Gamma in Hall.
    rewrite gamma_bw_inv_pow2_600 in Hall. discriminate Hall.
  - exact gamma_bw_pow2_512.
  - exact gamma_of_pow2_512.
  - intros Hall. specialize (Hall (IZR (2 ^ 512))).
    unfold Gamma, Bandwidth in Hall. cbn [bandwidth ExponentialKernel_bw] in Hall.
    rewrite gamma_of_pow2_512 in Hall.
    change (gamma (ExponentialKernel_bw (Fin (IZR (2 ^ 512)))) = Fin 0) in Hall.
    rewrite gamma_bw_pow2_512 in Hall. injection Hall as Hall.
    assert (0 < / IZR (2 ^ 1025)) by now apply Rinv_0_lt_compat.
    lra.
Qed.

(** C2, amended.  After default construction [Bandwidth()] is 1.0 and
    [Gamma()] is -0.5, which is [-1 / (2 * Bandwidth()^2)].  After
    construction with a real bandwidth [mu], [Bandwidth()] is [mu] and
    [Gamma()] is the double [-0.5 * pow(mu, -2.0)]: never positive and never
    NaN; minus infinity for [mu = 0]; -0.5 for [mu = 1] and -0.125 for
    [mu = 2]; and for [2^-500 <= |mu| <= 2^500] a finite negative number
    that differs from [-1 / (2 * mu^2)] by at most the fraction 2^-51 of
    it. *)
Theorem Gamma_after_construction :
  (Bandwidth ExponentialKernel_default = Fin 1 /\
   Gamma ExponentialKernel_default = Fin (- (1 / 2)) /\
   Gamma ExponentialKernel_default =
   spec.gamma_of (Bandwidth ExponentialKernel_default)) /\
  (forall mu : R,
      Bandwidth (ExponentialKernel_bw (Fin mu)) = Fin mu /\
      dle (Gamma (ExponentialKernel_bw (Fin mu))) (Fin 0)) /\
  Gamma (ExponentialKernel_bw (Fin 0)) = NInf /\
  Gamma (ExponentialKernel_bw (Fin 1)) = Fin (- (1 / 2)) /\
  Gamma (ExponentialKernel_bw (Fin 2)) = Fin (- (1 / 8)) /\
  (forall mu : R,
      / IZR (2 ^ 500) <= Rabs mu -> Rabs mu <= IZR (2 ^ 500) ->
      exists g : R,
        Gamma (ExponentialKernel_bw (Fin mu)) = Fin g /\
        g < 0 /\
        Rabs (g - (- 1 / (2 * (mu * mu))))
        <= 1 / (2 * (mu * mu)) / IZR (2 ^ 51)).
Proof.
  split; [| split; [| split; [| split; [| split]]]].
  - split; [reflexivity | split; [reflexivity |]].
    unfold spec.gamma_of, Bandwidth, Gamma. cbn [bandwidth gamma
      ExponentialKernel_default dmul].
    replace (1 * 1) with 1 by ring. rewrite rnd_1. cbn [dmul].
    replace (2 * 1) with (IZR 2) by (simpl; ring).
    rewrite rnd_int by reflexivity. simpl ddiv.
    rewrite Rsign_Gt by lra.
    replace (-1 / 2) with (- / IZR (2 ^ 1))
      by (change (IZR (2 ^ 1)) with 2; lra).
    rewrite rnd_opp_inv_pow2 by lia. f_equal.
    change (IZR (2 ^ 1)) with 2. lra.
  - intros mu. split; [reflexivity | apply gamma_bw_nonpos].
  - exact gamma_bw_zero.
  - exact gamma_bw_one.
  - exact gamma_bw_two.
  - intros mu Hlo Hhi. now apply gamma_bw_moderate.
Qed.

(** Bandwidth 2 is of moderate size. *)
Lemma Gamma_after_construction_witness :
  exists g : R,
    Gamma (ExponentialKernel_bw (Fin 2)) = Fin g /\
    g < 0 /\
    Rabs (g - (- 1 / (2 * (2 * 2)))) <= 1 / (2 * (2 * 2)) / IZR (2 ^ 51).
Proof.
  exact (proj2 (proj2 (proj2 (proj2 (proj2 Gamma_after_construction)))) 2
           (proj1 two_moderate) (proj2 two_moderate)).
Defined.

(** ** Zero and negative bandwidths *)

(** Bandwidth -2: [Evaluate(2)] is the rounding of exp(-1/4), a number
    between 1/2 and 1. *)
Lemma Evaluate_t_bw_minus_two :
  exists r : R,
    Evaluate_t (ExponentialKernel_bw (Fin (-2))) (Fin 2) = Fin r /\
    / 2 <= r <= 1.
Proof.
  unfold Evaluate_t. rewrite gamma_bw_minus_two. cbn [dmul dexp].
  replace (- (1 / 8) * 2) with (- / IZR (2 ^ 2))
    by (change (IZR (2 ^ 2)) with 4; lra).
  rewrite rnd_opp_inv_pow2 by lia. cbn [dexp].
  change (IZR (2 ^ 2)) with 4.
  assert (Hlo : / 2 <= exp (- / 4)).
  { pose proof (exp_ineq1_le (- / 4)). lra. }
  assert (Hhi : exp (- / 4) <= 1).
  { rewrite <- exp_0. left. apply exp_increasing. lra. }
  pose proof (rnd_le _ _ Hlo) as H1. pose proof (rnd_le _ _ Hhi) as H2.
  rewrite rnd_1 in H2.
  replace (/ 2) with (/ IZR (2 ^ 1)) in H1 by reflexivity.
  rewrite rnd_inv_pow2 in H1 by lia. change (IZR (2 ^ 1)) with 2 in H1.
  destruct (rnd (exp (- / 4))) as [r | | |]; simpl in H1, H2;
    try contradiction.
  exists r. split; [reflexivity | lra].
Qed.

(** C8, as stated, fails: bandwidth -2 gives gamma = -1/8, which is finite
    and negative, and [Evaluate(2)] is then a number between 1/2 and 1, none
    of 0, infinity and NaN. *)
Lemma negative_bandwidth_gamma_not_degenerate :
  (representable (-2) /\ representable 2) /\
  Gamma (ExponentialKernel_bw (Fin (-2))) = Fin (- (1 / 8)) /\
  ~ spec.degenerate_gamma (Gamma (ExponentialKernel_bw (Fin (-2)))) /\
  (exists r : R,
      Evaluate_t (ExponentialKernel_bw (Fin (-2))) (Fin 2) = Fin r /\
      / 2 <= r <= 1) /\
  ~ spec.degenerate_result
      (Evaluate_t (ExponentialKernel_bw (Fin (-2))) (Fin 2)) /\
  ~ (forall mu : R,
        mu <= 0 ->
        spec.degenerate_gamma (Gamma (ExponentialKernel_bw (Fin mu)))) /\
  ~ (forall mu t : R,
        mu <= 0 ->
        spec.degenerate_result
          (Evaluate_t (ExponentialKernel_bw (Fin mu)) (Fin t))).
Proof.
  assert (Hnd : ~ spec.degenerate_gamma
                    (Gamma (ExponentialKernel_bw (Fin (-2))))).
  { unfold Gamma. rewrite gamma_bw_minus_two.
    intros [H | H]; simpl in H; lra. }
  assert (Hnr : ~ spec.degenerate_result
                    (Evaluate_t (ExponentialKernel_bw (Fin (-2))) (Fin 2))).
  { destruct Evaluate_t_bw_minus_two as [r [-> Hr]].
    intros [H | [H | H]].
    - injection H as H. lra.
    - exact H.
    - discriminate H. }
  assert (Hm2 : -2 <= 0) by lra.
  split.
  { split; [exact (rnd_int (-2) ltac:(reflexivity))
           | exact (rnd_int 2 ltac:(reflexivity))]. }
  split; [exact gamma_bw_minus_two | split; [exact Hnd |]].
  split; [exact Evaluate_t_bw_minus_two | split; [exact Hnr |]].
  split.
  - intros Hall. exact (Hnd (Hall (-2) Hm2)).
  - intros Hall. exact (Hnr (Hall (-2) 2 Hm2)).
Qed.

(** C8, amended.  Construction with a zero or negative bandwidth [mu]
    stores the bandwidth as given, without a check.  With [mu = 0] the
    stored gamma is minus infinity, and [Evaluate(t)] is 0 for [t > 0], NaN
    for [t = 0] and plus infinity for [t < 0].  With [mu < 0] the stored
    gamma is the one of the bandwidth [-mu]: never positive and never NaN,
    and for [2^-500 <= -mu <= 2^500] a finite negative number that differs
    from [-1 / (2 * mu^2)] by at most the fraction 2^-51 of it;
    [Evaluate(t)] is then at least 0 and at most 1 for every real
    [t > 0]. *)
Theorem nonpositive_bandwidth_gamma (mu : R) :
  mu <= 0 ->
  Bandwidth (ExponentialKernel_bw (Fin mu)) = Fin mu /\
  (mu = 0 ->
   Gamma (ExponentialKernel_bw (Fin mu)) = NInf /\
   forall t : R,
     Evaluate_t (ExponentialKernel_bw (Fin mu)) (Fin t) =
     match Rsign t with
     | Gt => Fin 0
     | Eq => NaN
     | Lt => PInf
     end) /\
  (mu < 0 ->
   Gamma (ExponentialKernel_bw (Fin mu)) =
   Gamma (ExponentialKernel_bw (Fin (- mu))) /\
   dle (Gamma (ExponentialKernel_bw (Fin mu))) (Fin 0) /\
   (/ IZR (2 ^ 500) <= - mu -> - mu <= IZR (2 ^ 500) ->
    exists g : R,
      Gamma (ExponentialKernel_bw (Fin mu)) = Fin g /\
      g < 0 /\
      Rabs (g - (- 1 / (2 * (mu * mu))))
      <= 1 / (2 * (mu * mu)) / IZR (2 ^ 51)) /\
   forall t : R,
     0 < t ->
     dle (Fin 0) (Evaluate_t (ExponentialKernel_bw (Fin mu)) (Fin t)) /\
     dle (Evaluate_t (ExponentialKernel_bw (Fin mu)) (Fin t)) (Fin 1)).
Proof.
  intros Hmu. split; [reflexivity | split].
  - intros ->. split.
    + apply gamma_bw_zero.
    + intros t. apply Evaluate_t_gamma_NInf, gamma_bw_zero.
  - intros Hneg. split; [| split; [| split]].
    + unfold Gamma. now rewrite gamma_bw_opp.
    + apply gamma_bw_nonpos.
    + intros Hlo Hhi. apply gamma_bw_moderate;
        rewrite Rabs_left by exact Hneg; trivial.
    + intros t Ht. apply Evaluate_t_pos_range; trivial.
      apply gamma_bw_nonpos.
Qed.

Lemma minus_two_moderate :
  / IZR (2 ^ 500) <= - -2 /\ - -2 <= IZR (2 ^ 500).
Proof.
  destruct two_moderate as [H1 H2]. rewrite Rabs_pos_eq in H1, H2 by lra.
  split; lra.
Qed.

Lemma nonpositive_bandwidth_gamma_witness :
  (0 <= 0 /\ Gamma (ExponentialKernel_bw (Fin 0)) = NInf) /\
  (-2 < 0 /\
   Gamma (ExponentialKernel_bw (Fin (-2))) =
   Gamma (ExponentialKernel_bw (Fin (- -2))) /\
   exists g : R,
     Gamma (ExponentialKernel_bw (Fin (-2))) = Fin g /\
     g < 0 /\
     Rabs (g - (- 1 / (2 * (-2 * -2))))
     <= 1 / (2 * (-2 * -2)) / IZR (2 ^ 51)).
Proof.
  assert (H0 : 0 <= 0) by lra.
  assert (H2 : -2 <= 0) by lra.
  assert (H2' : -2 < 0) by lra.
  split; split; trivial.
  - exact (proj1 (proj1 (proj2 (nonpositive_bandwidth_gamma 0 H0)) eq_refl)).
  - destruct (proj2 (proj2 (nonpositive_bandwidth_gamma (-2) H2)) H2')
      as [Hsym [_ [Hmod _]]].
    split; [exact Hsym |].
    exact (Hmod (proj1 minus_two_moderate) (proj2 minus_two_moderate)).
Defined.

(** ** The sign of the bandwidth *)

(** C10, as stated, fails in its last part: the finite negative bandwidth
    -2^-600 yields the gamma minus infinity, not a finite negative one. *)
Lemma tiny_negative_bandwidth_gamma_infinite :
  representable (- / IZR (2 ^ 600)) /\
  - / IZR (2 ^ 600) <> 0 /\
  Gamma (ExponentialKernel_bw (Fin (- / IZR (2 ^ 600)))) = NInf /\
  ~ (exists g : R,
        Gamma (ExponentialKernel_bw (Fin (- / IZR (2 ^ 600)))) = Fin g /\
        g < 0) /\
  ~ (forall b : R,
        b <> 0 ->
        exists g : R, Gamma (ExponentialKernel_bw (Fin b)) = Fin g /\ g < 0).
Proof.
  pose proof (IZR_pow2_pos 600 ltac:(lia)) as Hp.
  assert (Hi : 0 < / IZR (2 ^ 600)) by now apply Rinv_0_lt_compat.
  assert (Hnz : - / IZR (2 ^ 600) <> 0) by lra.
  assert (Hg : Gamma (ExponentialKernel_bw (Fin (- / IZR (2 ^ 600)))) = NInf).
  { unfold Gamma. rewrite gamma_bw_opp. exact gamma_bw_inv_pow2_600. }
  split; [apply rnd_opp_inv_pow2; lia |].
  split; [exact Hnz | split; [exact Hg | split]].
  - intros [g [H _]]. rewrite Hg in H. discriminate H.
  - intros Hall. destruct (Hall _ Hnz) as [g [H _]].
    rewrite Hg in H. discriminate H.
Qed.

(** C10, amended.  For every real [b <> 0], the instances constructed with
    bandwidth [-b] and with bandwidth [b] store the same gamma, and both
    overloads of [Evaluate] return the same value on the two instances for
    all arguments.  That gamma is never positive and never NaN; for
    [2^-500 <= |b| <= 2^500] it is finite and negative. *)
Theorem bandwidth_sign_irrelevant (b : R) :
  b <> 0 ->
  Gamma (ExponentialKernel_bw (Fin (- b))) =
  Gamma (ExponentialKernel_bw (Fin b)) /\
  dle (Gamma (ExponentialKernel_bw (Fin b))) (Fin 0) /\
  (/ IZR (2 ^ 500) <= Rabs b -> Rabs b <= IZR (2 ^ 500) ->
   exists g : R, Gamma (ExponentialKernel_bw (Fin b)) = Fin g /\ g < 0) /\
  (forall x y : vec,
      Evaluate (ExponentialKernel_bw (Fin (- b))) x y =
      Evaluate (ExponentialKernel_bw (Fin b)) x y) /\
  (forall t : double,
      Evaluate_t (ExponentialKernel_bw (Fin (- b))) t =
      Evaluate_t (ExponentialKernel_bw (Fin b)) t).
Proof.
  intros Hb.
  pose proof (gamma_bw_opp b) as Hg.
  split; [exact Hg | split; [apply gamma_bw_nonpos | split; [| split]]].
  - intros Hlo Hhi.
    destruct (gamma_bw_moderate b Hlo Hhi) as [g [H1 [H2 _]]].
    now exists g.
  - intros x y. unfold Evaluate. now rewrite Hg.
  - intros t. unfold Evaluate_t. now rewrite Hg.
Qed.

(** Bandwidths -2 and 2. *)
Lemma bandwidth_sign_irrelevant_witness :
  2 <> 0 /\
  Gamma (ExponentialKernel_bw (Fin (- 2))) =
  Gamma (ExponentialKernel_bw (Fin 2)) /\
  (exists g : R, Gamma (ExponentialKernel_bw (Fin 2)) = Fin g /\ g < 0).
Proof.
  assert (H : 2 <> 0) by lra.
  split; [exact H |].
  split.
  - exact (proj1 (bandwidth_sign_irrelevant 2 H)).
  - exact (proj1 (proj2 (proj2 (bandwidth_sign_irrelevant 2 H)))
             (proj1 two_moderate) (proj2 two_moderate)).
Defined.

(** ** The scenarios of the specification *)

Example default_kernel_00_00 :
  Evaluate ExponentialKernel_default [0; 0] [0; 0] = Some (Fin 1).
Proof.
  rewrite (Evaluate_on_distance _ [0; 0] [0; 0] eq_refl).
  rewrite EuclideanDistance_same. f_equal.
  now apply Evaluate_t_finite_gamma_0.
Qed.

Example bandwidth_2_gamma :
  Gamma (ExponentialKernel_bw (Fin 2)) = Fin (- 0.125).
Proof. unfold Gamma. rewrite gamma_bw_two. f_equal. lra. Qed.

Example mismatched_lengths_fail (k : ExponentialKernel) :
  Evaluate k [1; 2] [1] = None.
Proof. reflexivity. Qed.

(** * Further properties of the class *)

(** ** Range of the scalar overload, whatever the bandwidth *)

(** X5.  For every real bandwidth, zero and negative ones included, and
    every real [t > 0], [Evaluate(t)] is a number at least 0 and at most 1:
    never NaN, never infinite. *)
Theorem Evaluate_t_positive_argument_range (mu t : R) :
  0 < t ->
  dle (Fin 0) (Evaluate_t (ExponentialKernel_bw (Fin mu)) (Fin t)) /\
  dle (Evaluate_t (ExponentialKernel_bw (Fin mu)) (Fin t)) (Fin 1).
Proof.
  intros Ht. apply Evaluate_t_pos_range; trivial. apply gamma_bw_nonpos.
Qed.

Lemma Evaluate_t_positive_argument_range_witness :
  dle (Fin 0) (Evaluate_t (ExponentialKernel_bw (Fin 0)) (Fin 3)) /\
  dle (Evaluate_t (ExponentialKernel_bw (Fin 0)) (Fin 3)) (Fin 1).
Proof.
  apply (Evaluate_t_positive_argument_range 0 3). lra.
Defined.

(** X6.  The scalar overload does not reject a negative argument: for every
    real bandwidth and every real [t < 0], [Evaluate(t)] is at least 1,
    plus infinity included. *)
Theorem Evaluate_t_negative_argument_at_least_1 (mu t : R) :
  t < 0 ->
  dle (Fin 1) (Evaluate_t (ExponentialKernel_bw (Fin mu)) (Fin t)).
Proof.
  intros Ht. unfold Evaluate_t.
  destruct (dle_cases_Fin_0 _ (gamma_bw_nonpos mu)) as [-> | [g [-> Hg]]].
  - simpl. rewrite (Rsign_Lt t Ht). exact I.
  - apply dexp_nonneg_range. apply dmul_nonpos_nonpos; lra.
Qed.

Lemma Evaluate_t_negative_argument_at_least_1_witness :
  dle (Fin 1) (Evaluate_t (ExponentialKernel_bw (Fin 2)) (Fin (-3))).
Proof.
  apply (Evaluate_t_negative_argument_at_least_1 2 (-3)). lra.
Defined.

(** X8.  The value reaches exactly 0: on an instance with the finite gamma
    [g], [Evaluate(t)] is 0 for every real [t] with [g * t <= -1075]; on
    the default instance that is every [t >= 2150]. *)
Theorem Evaluate_t_underflows_to_zero :
  (forall (k : ExponentialKernel) (g t : R),
      Gamma k = Fin g -> g * t <= - 1075 -> Evaluate_t k (Fin t) = Fin 0) /\
  (forall t : R,
      2150 <= t -> Evaluate_t ExponentialKernel_default (Fin t) = Fin 0).
Proof.
  split.
  - intros k g t Hg Hgt. now apply (Evaluate_t_underflow k g t).
  - intros t Ht.
    apply (Evaluate_t_underflow ExponentialKernel_default (- (1 / 2)) t);
      [reflexivity | lra].
Qed.

Lemma Evaluate_t_underflows_to_zero_witness :
  Evaluate_t ExponentialKernel_default (Fin 3000) = Fin 0.
Proof.
  apply (proj2 Evaluate_t_underflows_to_zero 3000). lra.
Defined.

(** ** Infinite and NaN bandwidths and arguments *)

Lemma gamma_bw_infinite (bw : double) :
  is_infinite bw -> gamma (ExponentialKernel_bw bw) = Fin 0.
Proof.
  intros H. destruct bw; try contradiction;
    unfold ExponentialKernel_bw; cbn [gamma pow_m2]; apply dmul_0_r.
Qed.



(** X10.  NaN is passed on, never masked: a NaN bandwidth is stored with a
    NaN gamma, and then both overloads return NaN on every argument; a NaN
    argument gives NaN on every instance. *)
Theorem NaN_propagates :
  Gamma (ExponentialKernel_bw NaN) = NaN /\
  (forall t : double, Evaluate_t (ExponentialKernel_bw NaN) t = NaN) /\
  (forall a b : vec,
      length a = length b ->
      Evaluate (ExponentialKernel_bw NaN) a b = Some NaN) /\
  (forall k : ExponentialKernel, Evaluate_t k NaN = NaN).
Proof.
  split; [reflexivity | split; [| split]].
  - intros t. unfold Evaluate_t, ExponentialKernel_bw. simpl.
    now destruct t.
  - intros a b Hlen. now rewrite (Evaluate_eq_length _ a b Hlen).
  - intros k. unfold Evaluate_t.
    destruct (gamma k) as [g | | |]; reflexivity.
Qed.

Lemma NaN_propagates_witness :
  Evaluate (ExponentialKernel_bw NaN) [1; 2] [3; 4] = Some NaN.
Proof.
  exact (proj1 (proj2 (proj2 NaN_propagates)) [1; 2] [3; 4] eq_refl).
Defined.

(** X11.  At an infinite argument the scalar overload takes its limits when
    the stored gamma is negative, finite or not: [Evaluate(+inf)] is 0 and
    [Evaluate(-inf)] is plus infinity.  When the stored gamma is zero, both
    are NaN. *)
Theorem Evaluate_t_at_infinity (k : ExponentialKernel) :
  (dlt (Gamma k) (Fin 0) ->
   Evaluate_t k PInf = Fin 0 /\ Evaluate_t k NInf = PInf) /\
  (Gamma k = Fin 0 ->
   Evaluate_t k PInf = NaN /\ Evaluate_t k NInf = NaN).
Proof.
  unfold Gamma, Evaluate_t. split.
  - intros H. destruct (gamma k) as [g | | |]; simpl in H; try contradiction.
    + simpl. rewrite (Rsign_Lt g H). split; reflexivity.
    + split; reflexivity.
  - intros ->. simpl. rewrite (Rsign_Eq 0 eq_refl). split; reflexivity.
Qed.

Lemma Evaluate_t_at_infinity_witness :
  (Evaluate_t ExponentialKernel_default PInf = Fin 0 /\
   Evaluate_t ExponentialKernel_default NInf = PInf) /\
  (Evaluate_t (ExponentialKernel_bw PInf) PInf = NaN /\
   Evaluate_t (ExponentialKernel_bw PInf) NInf = NaN).
Proof.
  split.
  - apply (proj1 (Evaluate_t_at_infinity ExponentialKernel_default)).
    simpl. lra.
  - apply (proj2 (Evaluate_t_at_infinity (ExponentialKernel_bw PInf))).
    exact (gamma_bw_infinite PInf I).
Defined.

(** ** The bandwidth as a scale *)

Lemma dmul_half_antitone (x y : double) :
  dle (Fin 0) x -> dle x y ->
  dle (dmul (Fin (- (1 / 2))) y) (dmul (Fin (- (1 / 2))) x).
Proof.
  intros H0 Hxy.
  destruct (dle_Fin_0_cases x H0) as [-> | [a [-> Ha]]].
  - destruct y; simpl in Hxy; try contradiction.
    rewrite dmul_half_PInf. exact I.
  - destruct y as [b | | |]; simpl in Hxy; try contradiction.
    + simpl. apply rnd_le. lra.
    + rewrite dmul_half_PInf. apply dle_NInf. simpl. apply rnd_not_NaN.
Qed.

Lemma dmul_pos_monotone (x y : double) (t : R) :
  0 < t -> dle x y -> dle y (Fin 0) ->
  dle (dmul x (Fin t)) (dmul y (Fin t)).
Proof.
  intros Ht Hxy Hy.
  destruct (dle_cases_Fin_0 y Hy) as [-> | [b [-> Hb]]].
  - destruct x; simpl in Hxy; try contradiction.
    simpl. rewrite (Rsign_Gt t Ht). exact I.
  - destruct x as [a | | |]; simpl in Hxy; try contradiction.
    + simpl. apply rnd_le. nra.
    + simpl dmul at 1. rewrite (Rsign_Gt t Ht). simpl inf_of_sign.
      apply dle_NInf. simpl. apply rnd_not_NaN.
Qed.

(** A larger positive bandwidth never gives a smaller gamma. *)
Lemma gamma_bw_monotone (m1 m2 : R) :
  0 < m1 -> m1 <= m2 ->
  dle (gamma (ExponentialKernel_bw (Fin m1)))
      (gamma (ExponentialKernel_bw (Fin m2))).
Proof.
  intros H1 H12.
  assert (H2 : 0 < m2) by lra.
  assert (Hs1 : 0 < m1 * m1) by now apply Rmult_lt_0_compat.
  assert (Hs2 : 0 < m2 * m2) by now apply Rmult_lt_0_compat.
  assert (Hq : / (m2 * m2) <= / (m1 * m1)).
  { apply Rinv_le_contravar; trivial. apply Rmult_le_compat; lra. }
  unfold ExponentialKernel_bw. cbn [gamma].
  rewrite !pow_m2_Fin_nonzero by lra.
  apply dmul_half_antitone.
  - apply rnd_nonneg. left. now apply Rinv_0_lt_compat.
  - now apply rnd_le.
Qed.

(** X1.  A larger bandwidth never gives a faster decay: for bandwidths
    [0 < m1 <= m2] and a real [t > 0], [Evaluate(t)] of the instance built
    with [m1] is at most that of the instance built with [m2]. *)
Theorem Evaluate_t_monotone_in_bandwidth (m1 m2 t : R) :
  0 < m1 -> m1 <= m2 -> 0 < t ->
  dle (Evaluate_t (ExponentialKernel_bw (Fin m1)) (Fin t))
      (Evaluate_t (ExponentialKernel_bw (Fin m2)) (Fin t)).
Proof.
  intros H1 H12 Ht. unfold Evaluate_t.
  apply dexp_le. apply dmul_pos_monotone; trivial.
  - now apply gamma_bw_monotone.
  - apply gamma_bw_nonpos.
Qed.

Lemma Evaluate_t_monotone_in_bandwidth_witness :
  dle (Evaluate_t (ExponentialKernel_bw (Fin 1)) (Fin 3))
      (Evaluate_t (ExponentialKernel_bw (Fin 2)) (Fin 3)).
Proof.
  apply (Evaluate_t_monotone_in_bandwidth 1 2 3); lra.
Defined.
